(** * tlsutil: session-ticket key rotation

    A shallow embedding of [KeyRotator] (its [read], [rotate], [Start] and
    [Stop] methods) and of the option [WithSessionTicketKeyRotation], with
    the properties of the key ring, of the seeding wrapper and of the
    shutdown handshake. *)

Set Warnings "-stdlib-vector".
From Stdlib Require Import Strings.String Strings.Byte.
From Stdlib Require Import List ZArith Lia Bool Arith.
From Stdlib Require Vector.
Import ListNotations.
Local Open Scope nat_scope.

(** ** Results of Go code that may panic *)

Inductive Res (A : Type) : Type :=
| Normal (a : A)
| Panic (msg : string).
Arguments Normal {A} a.
Arguments Panic {A} msg.

Definition bind {A B : Type} (m : Res A) (f : A -> Res B) : Res B :=
  match m with
  | Normal a => f a
  | Panic msg => Panic msg
  end.

Notation "x <- m ;; k" := (bind m (fun x => k))
  (at level 61, m at next level, right associativity).
Notation "' pat <- m ;; k" := (bind m (fun x => match x with pat => k end))
  (at level 61, pat pattern, m at next level, right associativity).

(** ** Keys, errors, readers *)

(** [[32]byte]: an array of exactly 32 bytes. *)
Definition Key : Type := Vector.t byte 32.

(** The zero value of [[32]byte], as [var key [32]byte] and [make] give it. *)
Definition zeroKey : Key := Vector.const x00 32.

(** Go's [error] interface value; [None] stands for [nil]. *)
Definition error : Type := string.

(** What one call [read(key[:])] leaves behind: the contents of the 32-byte
    buffer, the byte count and the error. *)
Record ReadOutcome : Type := mkOutcome {
  buf : Key;
  count : Z;
  err : option error
}.

(** An [io.Reader] (or the platform generator behind [rand.Read]) seen from
    [read]: the outcome of each successive call that fills a 32-byte buffer,
    and the number of calls made so far. *)
Record Reader : Type := mkReader {
  script : nat -> ReadOutcome;
  pos : nat
}.

Definition fill (rd : Reader) : ReadOutcome * Reader :=
  (script rd (pos rd), mkReader (script rd) (S (pos rd))).

(** [io.ReadFull(rd, key)] and [rand.Read(key)], at the level of their
    results. *)
Definition io_ReadFull (rd : Reader) : ReadOutcome * Reader := fill rd.
Definition rand_Read (rd : Reader) : ReadOutcome * Reader := fill rd.

(** ** Slices over a backing array *)

(** A slice header: a window [off, off+len) into a backing array, which may
    grow up to [off+cap). *)
Record Slice : Type := mkSlice {
  off : nat;
  len : nat;
  cap : nat
}.

(** The elements a slice shows. *)
Definition view (mem : list Key) (s : Slice) : list Key :=
  firstn (len s) (skipn (off s) mem).

(** [make([][32]byte, 0, n)]: a zeroed array of [n] keys and an empty slice
    over it; a negative [n] panics. *)
Definition make (n : Z) : Res (list Key * Slice) :=
  if (n <? 0)%Z then Panic "makeslice: cap out of range"
  else Normal (repeat zeroKey (Z.to_nat n), mkSlice 0 0 (Z.to_nat n)).

(** The slice expression [s[lo:hi]]: bounds are checked against the
    capacity. *)
Definition reslice (s : Slice) (lo hi : nat) : Res Slice :=
  if (lo <=? hi) && (hi <=? cap s)
  then Normal (mkSlice (off s + lo) (hi - lo) (cap s - lo))
  else Panic "slice bounds out of range".

(** [copy(dst, src)] on two slices of one array: [min(len dst, len src)]
    elements move, the source being read before anything is written. *)
Definition copy (mem : list Key) (dst src : Slice) : list Key * nat :=
  let n := Nat.min (len dst) (len src) in
  let data := firstn n (skipn (off src) mem) in
  (firstn (off dst) mem ++ data ++ skipn (off dst + n) mem, n).

(** [s[i] = v]. *)
Definition store (mem : list Key) (s : Slice) (i : nat) (v : Key)
  : Res (list Key) :=
  if i <? len s
  then Normal (firstn (off s + i) mem ++ v :: skipn (S (off s + i)) mem)
  else Panic "index out of range".

(** ** The configuration object, the rotator and the world they live in *)

(** The fields of [tls.Config] the rotator touches: the optional random
    source, the flag, and the keys last given to [SetSessionTicketKeys]. *)
Record Config : Type := mkConfig {
  Rand : option Reader;
  SessionTicketsDisabled : bool;
  sessionTicketKeys : list Key
}.

(** A channel is named by a number. *)
Definition Chan : Type := nat.

(** [KeyRotator]. Its [cfg] pointer is the one [Config] of the [World];
    [keys] is the header of a slice whose array is in the [World] too. *)
Record KeyRotator : Type := mkRotator {
  duration : Z;
  keys : Slice;
  stop : Chan
}.

(** What the outside sees, in order. *)
Inductive Event : Type :=
| EvSetSessionTicketKeys (ks : list Key)
| EvSessionTicketsDisabled
| EvGroupAdd (r : KeyRotator).

Record World : Type := mkWorld {
  config : Config;          (* the tls.Config behind cfg *)
  cryptoRand : Reader;      (* crypto/rand *)
  keysArray : list Key;     (* backing array of r.keys *)
  group : list KeyRotator;  (* members of the group.Group *)
  events : list Event       (* oldest first *)
}.

Definition set_keys (r : KeyRotator) (s : Slice) : KeyRotator :=
  mkRotator (duration r) s (stop r).

Definition set_keysArray (w : World) (mem : list Key) : World :=
  mkWorld (config w) (cryptoRand w) mem (group w) (events w).

Definition set_config (w : World) (c : Config) : World :=
  mkWorld c (cryptoRand w) (keysArray w) (group w) (events w).

Definition set_cryptoRand (w : World) (rd : Reader) : World :=
  mkWorld (config w) rd (keysArray w) (group w) (events w).

Definition emit (w : World) (e : Event) : World :=
  mkWorld (config w) (cryptoRand w) (keysArray w) (group w) (events w ++ [e]).

(** The ring: [r.keys] as a sequence, newest first. *)
Definition ring (r : KeyRotator) (w : World) : list Key :=
  view (keysArray w) (keys r).

(** [cfg.SetSessionTicketKeys(ks)]: the sink takes a copy of the list.
    (crypto/tls refuses an empty list; [rotate] never passes one, see
    [rotate_wf].) *)
Definition SetSessionTicketKeys (ks : list Key) (w : World) : World :=
  let c := config w in
  emit (set_config w (mkConfig (Rand c) (SessionTicketsDisabled c) ks))
       (EvSetSessionTicketKeys ks).

(** [cfg.SessionTicketsDisabled = true]. *)
Definition disableSessionTickets (w : World) : World :=
  let c := config w in
  emit (set_config w (mkConfig (Rand c) true (sessionTicketKeys c)))
       EvSessionTicketsDisabled.

(** [g.Add(r)]. *)
Definition group_Add (r : KeyRotator) (w : World) : World :=
  emit (mkWorld (config w) (cryptoRand w) (keysArray w) (group w ++ [r])
                (events w))
       (EvGroupAdd r).

(** ** KeyRotator.read *)

(** [cfg.Rand] when it is set, the platform generator otherwise. The
    buffer is returned with the byte count and the error. (The two readers
    are kept as two values: a [cfg.Rand] that is [rand.Reader] itself is not
    told apart from another reader with the same outcomes, and nothing below
    says that the reader not selected stays unread.) *)
Definition read (r : KeyRotator) (w : World) : ReadOutcome * World :=
  match Rand (config w) with
  | Some rd =>
      let (o, rd') := io_ReadFull rd in
      let c := config w in
      (o, set_config w (mkConfig (Some rd') (SessionTicketsDisabled c)
                                 (sessionTicketKeys c)))
  | None =>
      let (o, rd') := rand_Read (cryptoRand w) in
      (o, set_cryptoRand w rd')
  end.

(** ** KeyRotator.rotate *)

(** [key] is the local [var key [32]byte]; it is [buf o] once [read] has
    filled it. *)
Definition rotate (r : KeyRotator) (w : World)
  : Res (option error * KeyRotator * World) :=
  (* if len(r.keys) < cap(r.keys) { r.keys = r.keys[:len(r.keys)+1] } *)
  r1 <- (if len (keys r) <? cap (keys r)
         then ks <- reslice (keys r) 0 (len (keys r) + 1) ;;
              Normal (set_keys r ks)
         else Normal r) ;;
  (* copy(r.keys[1:], r.keys[:]) *)
  dst <- reslice (keys r1) 1 (len (keys r1)) ;;
  src <- reslice (keys r1) 0 (len (keys r1)) ;;
  let w1 := set_keysArray w (fst (copy (keysArray w) dst src)) in
  (* _, err := r.read(key[:]) *)
  let (o, w2) := read r1 w1 in
  (* if err == nil { r.keys[0] = key } *)
  w3 <- match err o with
        | None => mem <- store (keysArray w2) (keys r1) 0 (buf o) ;;
                  Normal (set_keysArray w2 mem)
        | Some _ => Normal w2
        end ;;
  (* r.cfg.SetSessionTicketKeys(r.keys) *)
  let w4 := SetSessionTicketKeys (ring r1 w3) w3 in
  (* return err *)
  Normal (err o, r1, w4).

(** ** WithSessionTicketKeyRotation *)

(** The composite literal [&KeyRotator{cfg: cfg, duration: d,
    keys: make([][32]byte, 0, n), stop: make(chan chan struct{})}]: a fresh
    rotator of capacity [n] in the world [w]. *)
Definition newRotator (n : Z) (d : Z) (stopChan : Chan) (w : World)
  : Res (KeyRotator * World) :=
  '(mem, ks) <- make n ;;
  Normal (mkRotator d ks stopChan, set_keysArray w mem).

(** The option the function returns, applied to the configuration of [w];
    the group [g] is the group of [w], [stopChan] the channel [make] gives
    for [stop]. The result is the option's error. *)
Definition WithSessionTicketKeyRotation (n : Z) (d : Z) (stopChan : Chan)
  (w : World) : Res (option error * World) :=
  '(r, w0) <- newRotator n d stopChan w ;;
  '(e, r', w') <- rotate r w0 ;;
  match e with
  | Some _ => Normal (None, disableSessionTickets w')
  | None => Normal (None, group_Add r' w')
  end.

(** ** Start and Stop: the run loop and the shutdown handshake *)

(** Where the goroutine running [Start] stands. *)
Inductive LoopPC : Type :=
| LIdle                      (* Start not called yet *)
| LSelect                    (* blocked in select, ticker running *)
| LClose (q : Chan)          (* took q from r.stop, before close(q) *)
| LReturn                    (* q closed, before return nil *)
| LDone (ret : option error) (* Start has returned, ticker stopped *)
| LPanic (msg : string).     (* the goroutine panicked *)

(** Where the caller of [Stop] stands. *)
Inductive StopPC : Type :=
| SIdle                      (* Stop not called yet *)
| SSend (q : Chan)           (* q made, blocked on r.stop <- q *)
| SRecv (q : Chan)           (* q sent, blocked on <-q *)
| SDone.                     (* Stop has returned *)

Record System : Type := mkSystem {
  rot : KeyRotator;
  world : World;
  loopPC : LoopPC;
  stopPC : StopPC;
  closed : list Chan;   (* channels closed so far *)
  nextChan : Chan;      (* the next channel make returns *)
  ticker : bool         (* the ticker is running *)
}.

(** The moves of the two goroutines. *)
Inductive Label : Type :=
| CallStart                      (* Start is entered *)
| Tick                           (* select takes case <-timer.C *)
| CallStop (err : option error)  (* Stop(err) is entered *)
| Handoff                        (* r.stop <- q meets q := <-r.stop *)
| CloseQ                         (* close(q) *)
| ReturnNil                      (* return nil, then the deferred timer.Stop() *)
| Wake.                          (* <-q completes *)

Definition isClosed (q : Chan) (s : System) : bool :=
  existsb (Nat.eqb q) (closed s).

Definition crashed (s : System) : bool :=
  match loopPC s with
  | LPanic _ => true
  | _ => false
  end.

(** [timer := time.NewTicker(r.duration); defer timer.Stop()]: a
    non-positive interval panics. *)
Definition Start_enter (s : System) : option System :=
  match loopPC s with
  | LIdle =>
      if (duration (rot s) <=? 0)%Z
      then Some (mkSystem (rot s) (world s)
                          (LPanic "non-positive interval for NewTicker")
                          (stopPC s) (closed s) (nextChan s) false)
      else Some (mkSystem (rot s) (world s) LSelect (stopPC s) (closed s)
                          (nextChan s) true)
  | _ => None
  end.

(** [case <-timer.C: r.rotate()], the result of [rotate] dropped. *)
Definition Start_tick (s : System) : option System :=
  match loopPC s with
  | LSelect =>
      match rotate (rot s) (world s) with
      | Normal (_, r', w') =>
          Some (mkSystem r' w' LSelect (stopPC s) (closed s) (nextChan s)
                         (ticker s))
      | Panic msg =>
          Some (mkSystem (rot s) (world s) (LPanic msg) (stopPC s) (closed s)
                         (nextChan s) (ticker s))
      end
  | _ => None
  end.

(** [q := make(chan struct{})] in [Stop]; [err] is not used. *)
Definition Stop_enter (err : option error) (s : System) : option System :=
  match stopPC s with
  | SIdle =>
      Some (mkSystem (rot s) (world s) (loopPC s) (SSend (nextChan s))
                     (closed s) (S (nextChan s)) (ticker s))
  | _ => None
  end.

(** The unbuffered [r.stop]: [r.stop <- q] in [Stop] and
    [case q := <-r.stop] in [Start] happen together. *)
Definition handoff (s : System) : option System :=
  match loopPC s, stopPC s with
  | LSelect, SSend q =>
      Some (mkSystem (rot s) (world s) (LClose q) (SRecv q) (closed s)
                     (nextChan s) (ticker s))
  | _, _ => None
  end.

(** [close(q)]; closing a closed channel panics. *)
Definition Start_close (s : System) : option System :=
  match loopPC s with
  | LClose q =>
      if isClosed q s
      then Some (mkSystem (rot s) (world s) (LPanic "close of closed channel")
                          (stopPC s) (closed s) (nextChan s) (ticker s))
      else Some (mkSystem (rot s) (world s) LReturn (stopPC s)
                          (q :: closed s) (nextChan s) (ticker s))
  | _ => None
  end.

(** [return nil], after which the deferred [timer.Stop()] runs. *)
Definition Start_return (s : System) : option System :=
  match loopPC s with
  | LReturn =>
      Some (mkSystem (rot s) (world s) (LDone None) (stopPC s) (closed s)
                     (nextChan s) false)
  | _ => None
  end.

(** [<-q] in [Stop]: it completes once [q] is closed. *)
Definition Stop_wait (s : System) : option System :=
  match stopPC s with
  | SRecv q =>
      if isClosed q s
      then Some (mkSystem (rot s) (world s) (loopPC s) SDone (closed s)
                          (nextChan s) (ticker s))
      else None
  | _ => None
  end.

(** [KeyRotator.Start], one statement at a time. *)
Definition Start (l : Label) (s : System) : option System :=
  match l with
  | CallStart => Start_enter s
  | Tick => Start_tick s
  | Handoff => handoff s
  | CloseQ => Start_close s
  | ReturnNil => Start_return s
  | _ => None
  end.

(** [KeyRotator.Stop], one statement at a time. *)
Definition Stop (l : Label) (s : System) : option System :=
  match l with
  | CallStop err => Stop_enter err s
  | Handoff => handoff s
  | Wake => Stop_wait s
  | _ => None
  end.

(** One move of the system; [None] when the move is not enabled. A panic
    ends the program. *)
Definition step (l : Label) (s : System) : option System :=
  if crashed s then None
  else match l with
       | CallStop _ | Wake => Stop l s
       | _ => Start l s
       end.

Fixpoint exec (ls : list Label) (s : System) : option System :=
  match ls with
  | [] => Some s
  | l :: ls' =>
      match step l s with
      | Some s' => exec ls' s'
      | None => None
      end
  end.

(** The system before [Start] and [Stop] are called. *)
Definition initial (r : KeyRotator) (w : World) (c : Chan) : System :=
  mkSystem r w LIdle SIdle [] c false.

(** ** Options and their composition (tlsutil.go) *)

(** What the options reach outside the rotator: the file system, and the
    certificates read from it. *)
Class Platform : Type := {
  FS : Type;
  Certificate : Type;
  (* os.MkdirAll(dir, 0700) *)
  os_MkdirAll : string -> FS -> option error * FS;
  (* tls.LoadX509KeyPair(certFile, keyFile) *)
  tls_LoadX509KeyPair : string -> string -> FS -> Certificate + error
}.

Inductive CurveID : Type := X25519 | CurveP256.

Inductive CipherSuite : Type :=
| TLS_ECDHE_ECDSA_WITH_AES_256_GCM_SHA384
| TLS_ECDHE_RSA_WITH_AES_256_GCM_SHA384
| TLS_ECDHE_ECDSA_WITH_CHACHA20_POLY1305
| TLS_ECDHE_RSA_WITH_CHACHA20_POLY1305
| TLS_ECDHE_ECDSA_WITH_AES_128_GCM_SHA256
| TLS_ECDHE_RSA_WITH_AES_128_GCM_SHA256.

(** [tls.VersionTLS12], 0x0303. *)
Definition VersionTLS12 : Z := 771.

Inductive PromptFn : Type := AcceptTOS.
Inductive HostPolicyFn : Type := HostWhitelist (hosts : list string).
Inductive CacheImpl : Type := DirCache (dir : string).

(** The fields of [autocert.Manager] the options set; [None] is [nil]. *)
Record Manager : Type := mkManager {
  Prompt : option PromptFn;
  HostPolicy : option HostPolicyFn;
  Cache : option CacheImpl
}.

(** The method value [mgr.GetCertificate]. *)
Inductive GetCertificateFn : Type := ManagerGetCertificate (mgr : Manager).

(** The fields of [tls.Config] the other options set. *)
Record Settings {P : Platform} : Type := mkSettings {
  MinVersion : Z;
  PreferServerCipherSuites : bool;
  CurvePreferences : list CurveID;
  CipherSuites : list CipherSuite;
  Certificates : list Certificate;
  GetCertificate : option GetCertificateFn
}.
Arguments mkSettings {P}.

(** What an [Option] works on: the configuration (its rotator fields in the
    [World], the others in [Settings]) and the file system. *)
Record Build {P : Platform} : Type := mkBuild {
  bWorld : World;
  bSettings : Settings;
  bFS : FS
}.
Arguments mkBuild {P}.

(** What an [ACMEOption] works on. *)
Record Acme {P : Platform} : Type := mkAcme {
  aManager : Manager;
  aFS : FS
}.
Arguments mkAcme {P}.

(** A Go function value taking a pointer and returning an [error], over
    the state [S] the pointer leads to; [None] is the nil function. *)
Definition Fn (S : Type) : Type := option (S -> Res (option error * S)).

Definition Option {P : Platform} : Type := Fn Build.
Definition ACMEOption {P : Platform} : Type := Fn Acme.

(** [opt(cfg)]: calling a nil function panics. *)
Definition call {S : Type} (opt : Fn S) (s : S) : Res (option error * S) :=
  match opt with
  | Some f => f s
  | None => Panic "invalid memory address or nil pointer dereference"
  end.

(** [for _, opt := range opts { if err := opt(cfg); err != nil { return err } }
    return nil], the loop of [Wrap], [ACMEWrap], [WithACME] and
    [NewTLSConfig]. *)
Fixpoint runOptions {S : Type} (opts : list (Fn S)) (s : S)
  : Res (option error * S) :=
  match opts with
  | [] => Normal (None, s)
  | opt :: rest =>
      '(e, s') <- call opt s ;;
      match e with
      | Some _ => Normal (e, s')
      | None => runOptions rest s'
      end
  end.

Definition Wrap {P : Platform} (opts : list Option) : Option :=
  Some (runOptions opts).

Definition ACMEWrap {P : Platform} (opts : list ACMEOption) : ACMEOption :=
  Some (runOptions opts).

(** [errors.Wrap(err, msg)] of github.com/pkg/errors, for a non-nil [err]:
    its message is [msg], a colon, and the message of [err]. *)
Definition errors_Wrap (e : error) (msg : string) : error :=
  (msg ++ ": " ++ e)%string.

Definition set_bWorld {P : Platform} (b : Build) (w : World) : Build :=
  mkBuild w (bSettings b) (bFS b).

Definition set_bSettings {P : Platform} (b : Build) (t : Settings) : Build :=
  mkBuild (bWorld b) t (bFS b).

Definition set_bFS {P : Platform} (b : Build) (fs : FS) : Build :=
  mkBuild (bWorld b) (bSettings b) fs.

Definition WithKeyPair {P : Platform} (certFile keyFile : string) : Option :=
  Some (fun b =>
    match tls_LoadX509KeyPair certFile keyFile (bFS b) with
    | inr e => Normal (Some (errors_Wrap e "failed to load keypair"), b)
    | inl cer =>
        let t := bSettings b in
        Normal (None,
                set_bSettings b
                  (mkSettings (MinVersion t) (PreferServerCipherSuites t)
                              (CurvePreferences t) (CipherSuites t)
                              (Certificates t ++ [cer]) (GetCertificate t)))
    end).

Definition WithACME {P : Platform} (opts : list ACMEOption) : Option :=
  Some (fun b =>
    let mgr := mkManager (Some AcceptTOS) None None in
    '(e, a) <- runOptions opts (mkAcme mgr (bFS b)) ;;
    match e with
    | Some _ => Normal (e, set_bFS b (aFS a))
    | None =>
        let t := bSettings b in
        Normal (None,
                mkBuild (bWorld b)
                  (mkSettings (MinVersion t) (PreferServerCipherSuites t)
                              (CurvePreferences t) (CipherSuites t)
                              (Certificates t)
                              (Some (ManagerGetCertificate (aManager a))))
                  (aFS a))
    end).

Definition WithACMEHosts {P : Platform} (hosts : list string) : ACMEOption :=
  Some (fun a =>
    if 0 <? length hosts
    then Normal (None,
                 mkAcme (mkManager (Prompt (aManager a))
                                   (Some (HostWhitelist hosts))
                                   (Cache (aManager a)))
                        (aFS a))
    else Normal (None, a)).

Definition WithACMEDirCache {P : Platform} (dir : string) : ACMEOption :=
  Some (fun a =>
    match os_MkdirAll dir (aFS a) with
    | (Some e, fs) => Normal (Some e, mkAcme (aManager a) fs)
    | (None, fs) =>
        Normal (None,
                mkAcme (mkManager (Prompt (aManager a))
                                  (HostPolicy (aManager a))
                                  (Some (DirCache dir)))
                       fs)
    end).

Definition WithTLS12 {P : Platform} : Option :=
  Some (fun b =>
    let t := bSettings b in
    Normal (None,
            set_bSettings b
              (mkSettings VersionTLS12 true [X25519; CurveP256]
                 [TLS_ECDHE_ECDSA_WITH_AES_256_GCM_SHA384;
                  TLS_ECDHE_RSA_WITH_AES_256_GCM_SHA384;
                  TLS_ECDHE_ECDSA_WITH_CHACHA20_POLY1305;
                  TLS_ECDHE_RSA_WITH_CHACHA20_POLY1305;
                  TLS_ECDHE_ECDSA_WITH_AES_128_GCM_SHA256;
                  TLS_ECDHE_RSA_WITH_AES_128_GCM_SHA256]
                 (Certificates t) (GetCertificate t)))).

(** [WithSessionTicketKeyRotation(g, n, d)] as an [Option]: it works on the
    rotator's share of the configuration. *)
Definition SessionTicketKeyRotation {P : Platform} (n d : Z) (stopChan : Chan)
  : Option :=
  Some (fun b =>
    '(e, w') <- WithSessionTicketKeyRotation n d stopChan (bWorld b) ;;
    Normal (e, set_bWorld b w')).

(** The zero [tls.Config] that [&tls.Config{}] allocates. *)
Definition zeroConfig : Config := mkConfig None false [].

Definition zeroSettings {P : Platform} : Settings :=
  mkSettings 0 false [] [] [] None.

(** The [*tls.Config] that [NewTLSConfig] returns: nil, or the configuration
    it allocated, which is the one of the resulting [Build]. *)
Inductive ConfigPtr : Type := NilConfig | NewConfig.

Definition NewTLSConfig {P : Platform} (opts : list Option) (b : Build)
  : Res (ConfigPtr * option error * Build) :=
  let b0 := mkBuild (set_config (bWorld b) zeroConfig) zeroSettings (bFS b) in
  '(e, b') <- runOptions opts b0 ;;
  match e with
  | Some _ => Normal (NilConfig, e, b')
  | None => Normal (NewConfig, None, b')
  end.

(** ** Runs of rotations and what is said about them *)

(** [k] calls of [rotate] in a row, each error dropped as [Start] drops it;
    a panic ends the run. *)
Fixpoint rotations (k : nat) (r : KeyRotator) (w : World)
  : Res (KeyRotator * World) :=
  match k with
  | 0 => Normal (r, w)
  | S k' => '(_, r', w') <- rotate r w ;; rotations k' r' w'
  end.

(** The reader [read] will use, and the outcomes of its next [k] calls. *)
Definition activeReader (w : World) : Reader :=
  match Rand (config w) with
  | Some rd => rd
  | None => cryptoRand w
  end.

Definition upcoming (k : nat) (w : World) : list ReadOutcome :=
  let rd := activeReader w in
  List.map (fun i => script rd (pos rd + i)) (seq 0 k).

(** [r.keys] starts at the head of its array and spans it. *)
Definition wf (r : KeyRotator) (w : World) : Prop :=
  off (keys r) = 0 /\
  cap (keys r) = length (keysArray w) /\
  len (keys r) <= cap (keys r).

(** The outcome the next [read] will see. *)
Definition nextOutcome (w : World) : ReadOutcome :=
  script (activeReader w) (pos (activeReader w)).

(** The key found at index 0 after a rotation: the buffer when the read
    succeeded, else whatever the shift left there. *)
Definition installed (o : ReadOutcome) (old : Key) : Key :=
  match err o with
  | None => buf o
  | Some _ => old
  end.

Record rotate_post (r : KeyRotator) (w : World)
       (r' : KeyRotator) (w' : World) : Prop := {
  post_wf : wf r' w';
  post_cap : cap (keys r') = cap (keys r);
  post_len : len (keys r') = Nat.min (S (len (keys r))) (cap (keys r));
  post_ring : ring r' w' =
              installed (nextOutcome w) (hd zeroKey (keysArray w))
              :: firstn (cap (keys r) - 1) (ring r w);
  post_events : events w' = events w ++ [EvSetSessionTicketKeys (ring r' w')];
  post_sink : sessionTicketKeys (config w') = ring r' w';
  post_flag : SessionTicketsDisabled (config w')
              = SessionTicketsDisabled (config w);
  post_group : group w' = group w;
  post_reader : activeReader w' =
                mkReader (script (activeReader w)) (S (pos (activeReader w)));
  post_duration : duration r' = duration r;
  post_stop : stop r' = stop r
}.

(** The ring after a run of rotations, as a function of the outcomes read:
    [h] is what sits at index 0 of the array, [ks] the ring, [N] the
    capacity. *)
Fixpoint ringAfter (N : nat) (os : list ReadOutcome) (h : Key)
  (ks : list Key) : list Key :=
  match os with
  | [] => ks
  | o :: os' =>
      ringAfter N os' (installed o h) (installed o h :: firstn (N - 1) ks)
  end.

(** All the outcomes are successes. *)
Definition allOk (os : list ReadOutcome) : Prop :=
  Forall (fun o => err o = None) os.

(** The key of the last success among the outcomes, if any. *)
Fixpoint lastGenerated (os : list ReadOutcome) : option Key :=
  match os with
  | [] => None
  | o :: os' =>
      match lastGenerated os' with
      | Some g => Some g
      | None => match err o with
                | None => Some (buf o)
                | Some _ => None
                end
      end
  end.

(** The states a rotator goes through under repeated calls of [rotate]. *)
Inductive reachable (r0 : KeyRotator) (w0 : World)
  : KeyRotator -> World -> Prop :=
| reach_init : reachable r0 w0 r0 w0
| reach_rotate r w e r' w' :
    reachable r0 w0 r w ->
    rotate r w = Normal (e, r', w') ->
    reachable r0 w0 r' w'.

(** The loop has acknowledged the request and left its [select] for good. *)
Definition acknowledged (s : System) : Prop :=
  loopPC s = LReturn \/ loopPC s = LDone None.

(** A schedule with the argument of every [Stop] call replaced. *)
Definition withErr (e : option error) (l : Label) : Label :=
  match l with
  | CallStop _ => CallStop e
  | _ => l
  end.

(** The loop is past its [select]: it took the stop case, or it is gone. *)
Definition pastSelect (s : System) : Prop :=
  match loopPC s with
  | LIdle | LSelect => False
  | _ => True
  end.

(** The loop has not taken the stop case. *)
Definition beforeStop (s : System) : Prop :=
  match loopPC s with
  | LIdle | LSelect | LPanic _ => True
  | _ => False
  end.

(** What holds of every state of the handshake, [c] being the channel the
    one call of [Stop] makes. *)
Definition handshakeInv (c : Chan) (s : System) : Prop :=
  match stopPC s with
  | SIdle => closed s = [] /\ nextChan s = c /\ beforeStop s
  | SSend q => q = c /\ closed s = [] /\ beforeStop s
  | SRecv q => q = c /\
               (loopPC s = LClose c /\ closed s = [] \/
                acknowledged s /\ closed s = [c])
  | SDone => acknowledged s /\ closed s = [c]
  end.

(** Unfolds one move of the system in the goal. *)
Ltac step_cases_goal :=
  unfold step, Start, Stop, Start_enter, Start_tick, Stop_enter, handoff,
    Start_close, Start_return, Stop_wait, crashed, isClosed;
  cbn [loopPC stopPC rot world closed nextChan ticker].

(** Unfolds one move of the system in [H]. *)
Ltac step_cases H :=
  unfold step, Start, Stop, Start_enter, Start_tick, Stop_enter, handoff,
    Start_close, Start_return, Stop_wait, crashed, isClosed in H;
  cbn [loopPC stopPC rot world closed nextChan ticker] in H.

(** ** Concrete readers and worlds for the scenarios *)

(** A read that fills the buffer with [k], and one that fails with [e]. *)
Definition ok (k : Key) : ReadOutcome := mkOutcome k 32 None.
Definition failed (e : error) : ReadOutcome := mkOutcome zeroKey 0 (Some e).

(** A reader that replays [l] and then reports end of input. *)
Definition replay (l : list ReadOutcome) : Reader :=
  mkReader (fun i => nth i l (failed "EOF"%string)) 0.

Definition k1 : Key := Vector.const x01 32.
Definition k2 : Key := Vector.const x02 32.
Definition k3 : Key := Vector.const x03 32.
Definition k4 : Key := Vector.const x04 32.

Definition emptyConfig (rd : option Reader) : Config := mkConfig rd false [].

(** A world whose configuration reads its randomness from [l]. *)
Definition worldWith (l : list ReadOutcome) : World :=
  mkWorld (emptyConfig (Some (replay l))) (replay []) [] [] [].

(** A rotator of capacity [n] made in [worldWith l] and rotated [k]
    times. *)
Definition seeded (n : Z) (l : list ReadOutcome) (k : nat)
  : Res (KeyRotator * World) :=
  '(r, w) <- newRotator n 3600 0 (worldWith l) ;; rotations k r w.

(** The ring a run ends with; [None] when it panicked. *)
Definition ringOf (x : Res (KeyRotator * World)) : option (list Key) :=
  match x with
  | Normal (r, w) => Some (ring r w)
  | Panic _ => None
  end.

(** Scenario B before the failing rotation: capacity 3, ring [[k1]], the
    reader about to fail. *)
Definition rotatorB : KeyRotator := mkRotator 3600 (mkSlice 0 1 3) 0.

Definition readerB : Reader :=
  mkReader (script (replay [ok k1; failed "entropy"%string])) 1.

Definition worldB : World :=
  mkWorld (mkConfig (Some readerB) false [k1]) (replay [])
          [k1; zeroKey; zeroKey] [] [EvSetSessionTicketKeys [k1]].

(** A fresh rotator of capacity 3 and its world, reading from [l]. *)
Definition rotatorA : KeyRotator := mkRotator 3600 (mkSlice 0 0 3) 0.

Definition worldA (l : list ReadOutcome) : World :=
  set_keysArray (worldWith l) (repeat zeroKey 3).

(** A full ring [[k1]] of capacity 1, two fresh keys to come. *)
Definition rotatorE : KeyRotator := mkRotator 3600 (mkSlice 0 1 1) 0.

Definition worldE : World :=
  mkWorld (mkConfig (Some (replay [ok k2; ok k3])) false [k1]) (replay [])
          [k1] [] [EvSetSessionTicketKeys [k1]].

(** The same ring [[k1]] of capacity 1, reached by one rotation, with [k2]
    and then [k1] again to come. *)
Definition worldF : World :=
  mkWorld (mkConfig (Some (mkReader (script (replay [ok k1; ok k2; ok k1])) 1))
                    false [k1])
          (replay []) [k1] [] [EvSetSessionTicketKeys [k1]].

(** Systems about to handle a tick whose read fails, and after [Stop] has
    returned. *)
Definition runningB : System :=
  mkSystem rotatorB worldB LSelect SIdle [] 7 true.

Definition stoppedB : System :=
  mkSystem rotatorB worldB LReturn SDone [7] 8 true.

(** ** What is said about rotations beyond the ring's contents *)

(** All the outcomes are failures. *)
Definition allFailed (os : list ReadOutcome) : Prop :=
  Forall (fun o => err o <> None) os.

(** The event is a call of [SetSessionTicketKeys] with between one and [N]
    keys. *)
Definition isPublish (N : nat) (e : Event) : Prop :=
  match e with
  | EvSetSessionTicketKeys ks => ks <> [] /\ length ks <= N
  | _ => False
  end.

(** A reader after [k] more calls. *)
Definition advance (k : nat) (rd : Reader) : Reader :=
  mkReader (script rd) (k + pos rd).

(** [Stop] has not got its request through: it is not called yet, or it is
    blocked on [r.stop <- q]. *)
Definition stopPending (s : System) : Prop :=
  match stopPC s with
  | SIdle | SSend _ => True
  | _ => False
  end.

(** ** What is said about the options *)

(** The certificates a run of [WithKeyPair] options loads, in order, up to
    the first pair that fails, and the error that pair gives. *)
Fixpoint loadAll {P : Platform} (pairs : list (string * string)) (fs : FS)
  : list Certificate * option error :=
  match pairs with
  | [] => ([], None)
  | (certFile, keyFile) :: rest =>
      match tls_LoadX509KeyPair certFile keyFile fs with
      | inr e => ([], Some (errors_Wrap e "failed to load keypair"))
      | inl cer => let (cs, r) := loadAll rest fs in (cer :: cs, r)
      end
  end.

(** [Certificates] replaced in the settings of [b]. *)
Definition set_Certificates {P : Platform} (b : Build)
  (cs : list Certificate) : Build :=
  let t := bSettings b in
  set_bSettings b
    (mkSettings (MinVersion t) (PreferServerCipherSuites t)
                (CurvePreferences t) (CipherSuites t) cs (GetCertificate t)).

(** The configuration [NewTLSConfig] starts from. *)
Definition freshBuild {P : Platform} (b : Build) : Build :=
  mkBuild (set_config (bWorld b) zeroConfig) zeroSettings (bFS b).

(** A platform for the examples: the file system is the list of the
    directories made so far; one directory cannot be made and one
    certificate file is missing. *)
Definition testPlatform : Platform := {|
  FS := list string;
  Certificate := string;
  os_MkdirAll := fun dir fs =>
    if String.eqb dir "/proc/acme"
    then (Some "mkdir /proc/acme: permission denied"%string, fs)
    else (None, dir :: fs);
  tls_LoadX509KeyPair := fun certFile keyFile fs =>
    if String.eqb certFile "missing.pem"
    then inr "open missing.pem: no such file or directory"%string
    else inl (certFile ++ "+" ++ keyFile)%string
|}.

(** A build state on [testPlatform] whose platform generator replays [l]. *)
Definition testBuild (l : list ReadOutcome) : @Build testPlatform :=
  @mkBuild testPlatform (mkWorld zeroConfig (replay l) [] [] [])
           (@zeroSettings testPlatform) [].

(** [Stop] and [Start] have both returned, the ticker stopped. *)
Definition finished (s : System) : Prop :=
  stopPC s = SDone /\ loopPC s = LDone None /\ ticker s = false.

(** Some move of the system is enabled. *)
Definition enabled (s : System) : Prop :=
  exists l s', step l s = Some s'.

(** * Properties *)

(** ** Lists *)

Section ListFacts.

Context {A : Type}.

Lemma In_firstn (n : nat) : forall (l : list A) (x : A),
  In x (firstn n l) -> In x l.
Proof.
  induction n as [|n IH]; intros [|a l] x H; cbn in H; try contradiction.
  destruct H as [->|H]; [now left|right; now apply IH].
Qed.

Lemma firstn_firstn_le (l : list A) (i j : nat) :
  i <= j -> firstn j (firstn i l) = firstn i l.
Proof.
  intros Hij. rewrite firstn_firstn. f_equal. lia.
Qed.

Lemma firstn_app_exact (l1 l2 : list A) (n : nat) :
  n = length l1 -> firstn n (l1 ++ l2) = l1.
Proof.
  intros ->. rewrite firstn_app, Nat.sub_diag, firstn_all. simpl.
  apply app_nil_r.
Qed.

Lemma firstn_app_firstn (a b : list A) (n m : nat) :
  n <= length a + m -> firstn n (a ++ firstn m b) = firstn n (a ++ b).
Proof.
  intros H. rewrite !firstn_app, firstn_firstn. do 2 f_equal. lia.
Qed.

End ListFacts.

Lemma firstn_seq_le (k : nat) : forall (m s : nat),
  k <= m -> firstn k (seq s m) = seq s k.
Proof.
  induction k as [|k IH]; intros m s Hk; [reflexivity|].
  destruct m as [|m]; [lia|].
  cbn [seq firstn]. f_equal. apply IH. lia.
Qed.

(** ** Slices, and one rotation of a well-formed rotator *)

Lemma reslice_ok (s : Slice) (lo hi : nat) :
  lo <= hi -> hi <= cap s ->
  reslice s lo hi = Normal (mkSlice (off s + lo) (hi - lo) (cap s - lo)).
Proof.
  intros H1 H2. unfold reslice.
  apply Nat.leb_le in H1, H2. now rewrite H1, H2.
Qed.

(** The first statement of [rotate]: the slice grows by one below capacity. *)
Lemma grow_ok (d : Z) (l c : nat) (st : Chan) :
  l <= c ->
  (if l <? c
   then ks <- reslice (mkSlice 0 l c) 0 (l + 1) ;;
        Normal (set_keys (mkRotator d (mkSlice 0 l c) st) ks)
   else Normal (mkRotator d (mkSlice 0 l c) st))
  = Normal (mkRotator d (mkSlice 0 (Nat.min (S l) c) c) st).
Proof.
  intros Hl. destruct (l <? c) eqn:Hlt.
  - apply Nat.ltb_lt in Hlt. rewrite reslice_ok by (simpl; lia).
    unfold bind, set_keys; cbn [duration stop off cap].
    do 3 f_equal; lia.
  - apply Nat.ltb_ge in Hlt. do 3 f_equal. lia.
Qed.

(** [copy(r.keys[1:], r.keys[:])] on an array [mem] seen through a slice of
    length [l >= 1] at offset 0. *)
Lemma shift_ok (mem : list Key) (l c : nat) :
  1 <= l -> l <= length mem ->
  fst (copy mem (mkSlice (0 + 1) (l - 1) (c - 1)) (mkSlice (0 + 0) (l - 0) (c - 0)))
  = hd zeroKey mem :: firstn (l - 1) mem ++ skipn l mem.
Proof.
  intros H1 H2. unfold copy; cbn [fst off len].
  rewrite Nat.min_l by lia.
  replace (0 + 1 + (l - 1)) with l by lia.
  destruct mem as [|b0 b']; [simpl in H2; lia|]. reflexivity.
Qed.

Lemma shifted_length (mem : list Key) (l : nat) :
  1 <= l -> l <= length mem ->
  length (firstn (l - 1) mem ++ skipn l mem) = length mem - 1.
Proof.
  intros H1 H2. rewrite length_app, length_firstn, length_skipn. lia.
Qed.

Lemma shifted_view (mem : list Key) (l c : nat) (h : Key) :
  1 <= l -> l <= length mem -> l = Nat.min (S (l - 1)) c ->
  firstn l (h :: firstn (l - 1) mem ++ skipn l mem) = h :: firstn (l - 1) mem.
Proof.
  intros H1 H2 _. destruct l as [|l']; [lia|].
  cbn [firstn]. f_equal. replace (S l' - 1) with l' by lia.
  apply firstn_app_exact. rewrite length_firstn. lia.
Qed.

Lemma rotate_wf (r : KeyRotator) (w : World) :
  wf r w -> 1 <= cap (keys r) ->
  exists r' w',
    rotate r w = Normal (err (nextOutcome w), r', w') /\
    rotate_post r w r' w'.
Proof.
  destruct r as [d [o l c] st], w as [[rnd flag sink] cr mem g ev].
  unfold wf; cbn [keys off len cap keysArray]. intros (-> & -> & Hl) Hc.
  remember (Nat.min (S l) (length mem)) as l' eqn:El'.
  assert (Hl1 : 1 <= l') by lia.
  assert (Hl2 : l' <= length mem) by lia.
  unfold rotate. cbn [keys len cap]. rewrite grow_ok by exact Hl.
  rewrite <- El'. cbn [bind keys len].
  rewrite !reslice_ok by (cbn [cap]; lia).
  cbn [bind off cap keysArray set_keysArray config cryptoRand group events].
  rewrite shift_ok by assumption.
  unfold read, nextOutcome, activeReader, io_ReadFull, rand_Read, fill.
  assert (Hring : firstn (length mem - 1) (firstn l mem) = firstn (l' - 1) mem).
  { rewrite firstn_firstn. f_equal. lia. }
  assert (Hlen : length (firstn (l' - 1) mem ++ skipn l' mem) = length mem - 1)
    by (apply shifted_length; lia).
  assert (Hview : forall h, firstn l' (h :: firstn (l' - 1) mem ++ skipn l' mem)
                            = h :: firstn (l' - 1) mem)
    by (intros h; apply (shifted_view mem l' (length mem)); lia).
  assert (Hpos : (0 <? l') = true) by (apply Nat.ltb_lt; lia).
  destruct rnd as [rd|];
    [destruct (err (script rd (pos rd))) eqn:He
    |destruct (err (script cr (pos cr))) eqn:He];
    cbn [Rand SessionTicketsDisabled sessionTicketKeys set_config
         set_cryptoRand set_keysArray keysArray config cryptoRand group
         events];
    rewrite He;
    unfold store;
    cbn [bind keys len off keysArray];
    rewrite ?Hpos;
    cbn [bind];
    do 2 eexists; (split; [reflexivity|]);
    (constructor;
     unfold wf, ring, view, installed, nextOutcome, activeReader,
       SetSessionTicketKeys, emit, set_config, set_keysArray, set_cryptoRand;
     cbn [keys off len cap keysArray config events group Rand cryptoRand
          SessionTicketsDisabled sessionTicketKeys duration stop hd skipn
          Nat.add firstn app];
     rewrite ?He, ?Hview, ?Hring;
     try reflexivity;
     try (repeat split; try lia; cbn [length]; rewrite Hlen; lia)).
Qed.

(** [rotate] panics on a rotator of capacity zero: [r.keys[1:]] is out of
    bounds on the empty slice. *)
Lemma rotate_cap0 (r : KeyRotator) (w : World) :
  wf r w -> cap (keys r) = 0 ->
  rotate r w = Panic "slice bounds out of range".
Proof.
  destruct r as [d [o l c] st]. unfold wf; cbn [keys off len cap].
  intros (-> & _ & Hl) ->. assert (l = 0) by lia. subst l. reflexivity.
Qed.

Lemma wf_ring_length (r : KeyRotator) (w : World) :
  wf r w -> length (ring r w) = len (keys r).
Proof.
  intros (Ho & Hc & Hl). unfold ring, view. rewrite Ho. cbn [skipn].
  rewrite length_firstn. lia.
Qed.

Lemma wf_head (r : KeyRotator) (w : World) :
  wf r w -> 1 <= len (keys r) ->
  hd zeroKey (keysArray w) = hd zeroKey (ring r w).
Proof.
  intros (Ho & Hc & Hl) H1. unfold ring, view. rewrite Ho. cbn [skipn].
  destruct (len (keys r)) as [|l']; [lia|].
  destruct (keysArray w); reflexivity.
Qed.

Lemma newRotator_wf (n d : Z) (st : Chan) (w : World) :
  (0 <= n)%Z ->
  exists r0 w0,
    newRotator n d st w = Normal (r0, w0) /\
    wf r0 w0 /\ cap (keys r0) = Z.to_nat n /\ len (keys r0) = 0 /\
    keysArray w0 = repeat zeroKey (Z.to_nat n) /\
    w0 = set_keysArray w (repeat zeroKey (Z.to_nat n)) /\
    r0 = mkRotator d (mkSlice 0 0 (Z.to_nat n)) st.
Proof.
  intros Hn. unfold newRotator, make.
  replace (n <? 0)%Z with false by (symmetry; apply Z.ltb_ge; lia).
  cbn [bind]. do 2 eexists. split; [reflexivity|].
  unfold wf; cbn [keys off len cap keysArray set_keysArray].
  rewrite repeat_length. repeat split; lia.
Qed.

Lemma nextOutcome_set_keysArray (w : World) (mem : list Key) :
  nextOutcome (set_keysArray w mem) = nextOutcome w.
Proof. reflexivity. Qed.

Lemma newRotator_normal (n d : Z) (st : Chan) (w : World) (r0 : KeyRotator)
  (w0 : World) :
  newRotator n d st w = Normal (r0, w0) -> (0 <= n)%Z.
Proof.
  unfold newRotator, make. destruct (n <? 0)%Z eqn:Hn; [discriminate|].
  intros _. apply Z.ltb_ge. exact Hn.
Qed.

(** ** Runs of rotations *)

(** The outcomes still to come, one rotation later. *)
Lemma upcoming_S (k : nat) (w w' : World) :
  activeReader w' =
    mkReader (script (activeReader w)) (S (pos (activeReader w))) ->
  upcoming (S k) w = nextOutcome w :: upcoming k w'.
Proof.
  intros H. unfold upcoming, nextOutcome. rewrite H. cbn [script pos seq map].
  rewrite Nat.add_0_r. f_equal.
  rewrite <- seq_shift, map_map. apply map_ext. intros i. f_equal. lia.
Qed.

Lemma upcoming_nth (m k : nat) (w : World) :
  k < m ->
  nth_error (upcoming m w) k =
  Some (script (activeReader w) (pos (activeReader w) + k)).
Proof.
  intros Hk. unfold upcoming.
  rewrite nth_error_map, nth_error_seq.
  apply Nat.ltb_lt in Hk. rewrite Hk. reflexivity.
Qed.

Lemma upcoming_firstn (m k : nat) (w : World) :
  k <= m -> firstn k (upcoming m w) = upcoming k w.
Proof.
  intros Hk. unfold upcoming.
  now rewrite firstn_map, firstn_seq_le by exact Hk.
Qed.

Lemma allOk_firstn (k : nat) (os : list ReadOutcome) :
  allOk os -> allOk (firstn k os).
Proof.
  unfold allOk. rewrite !Forall_forall. intros H o Ho.
  apply H. eapply In_firstn. exact Ho.
Qed.

Lemma rotations_wf (k : nat) : forall (r : KeyRotator) (w : World),
  wf r w -> 1 <= cap (keys r) ->
  exists r' w',
    rotations k r w = Normal (r', w') /\
    wf r' w' /\
    cap (keys r') = cap (keys r) /\
    ring r' w' = ringAfter (cap (keys r)) (upcoming k w)
                           (hd zeroKey (keysArray w)) (ring r w).
Proof.
  induction k as [|k IH]; intros r w Hwf Hc.
  - exists r, w. repeat split; try reflexivity; apply Hwf.
  - destruct (rotate_wf r w Hwf Hc) as (r1 & w1 & Hrot & Hpost).
    destruct Hpost.
    destruct (IH r1 w1 post_wf0 ltac:(lia)) as (r2 & w2 & Hrun & Hwf2 & Hc2 & Hr2).
    exists r2, w2. cbn [rotations]. rewrite Hrot. cbn [bind].
    split; [exact Hrun|]. split; [exact Hwf2|]. split; [congruence|].
    rewrite Hr2, (upcoming_S k w w1 post_reader0). cbn [ringAfter].
    rewrite post_cap0, post_ring0.
    rewrite (wf_head r1 w1 post_wf0) by lia.
    rewrite post_ring0. reflexivity.
Qed.

Lemma rotations_reader (k : nat) : forall (r : KeyRotator) (w : World),
  wf r w -> 1 <= cap (keys r) ->
  forall r' w', rotations k r w = Normal (r', w') ->
  activeReader w' =
    mkReader (script (activeReader w)) (k + pos (activeReader w)).
Proof.
  induction k as [|k IH]; intros r w Hwf Hc r' w' Hrun.
  - cbn in Hrun. injection Hrun as <- <-. now destruct (activeReader w).
  - destruct (rotate_wf r w Hwf Hc) as (r1 & w1 & Hrot & Hpost).
    destruct Hpost. cbn [rotations] in Hrun. rewrite Hrot in Hrun.
    cbn [bind] in Hrun.
    rewrite (IH r1 w1 post_wf0 ltac:(lia) r' w' Hrun), post_reader0.
    cbn [script pos]. f_equal. lia.
Qed.

Lemma rotations_snoc (k : nat) : forall (r : KeyRotator) (w : World),
  rotations (S k) r w =
  ('(r1, w1) <- rotations k r w ;;
   '(_, r2, w2) <- rotate r1 w1 ;; Normal (r2, w2)).
Proof.
  induction k as [|k IH]; intros r w.
  - cbn [rotations bind]. destruct (rotate r w) as [[[e r1] w1]|]; reflexivity.
  - change (rotations (S (S k)) r w)
      with ('(_, r', w') <- rotate r w ;; rotations (S k) r' w').
    destruct (rotate r w) as [[[e r1] w1]|] eqn:Hrot.
    + cbn [bind]. rewrite IH. cbn [rotations]. rewrite Hrot. reflexivity.
    + cbn [rotations bind]. rewrite Hrot. reflexivity.
Qed.

Lemma ringAfter_allOk (N : nat) (os : list ReadOutcome) :
  1 <= N -> allOk os -> forall (h : Key) (ks : list Key),
  length ks <= N ->
  ringAfter N os h ks = firstn N (rev (map buf os) ++ ks).
Proof.
  intros HN Hok. induction Hok as [|o os Ho Hos IH]; intros h ks Hks.
  - cbn. symmetry. apply firstn_all2. exact Hks.
  - cbn [ringAfter map rev]. unfold installed. rewrite Ho.
    rewrite IH by (cbn [length]; rewrite length_firstn; lia).
    rewrite <- app_assoc. cbn [app].
    change (buf o :: firstn (N - 1) ks) with ([buf o] ++ firstn (N - 1) ks).
    change (buf o :: ks) with ([buf o] ++ ks).
    rewrite !app_assoc. apply firstn_app_firstn.
    rewrite length_app. cbn [length]. lia.
Qed.

Lemma ringAfter_failures (N : nat) (os : list ReadOutcome) :
  lastGenerated os = None -> forall (h : Key) (t : list Key),
  hd_error (ringAfter N os h (h :: t)) = Some h.
Proof.
  induction os as [|o os IH]; intros Hnone h t; [reflexivity|].
  cbn [lastGenerated] in Hnone.
  destruct (lastGenerated os); [discriminate|].
  destruct (err o) eqn:He; [|discriminate].
  cbn [ringAfter]. unfold installed. rewrite He. apply IH. reflexivity.
Qed.

Lemma ringAfter_lastGenerated (N : nat) (os : list ReadOutcome) (g : Key) :
  lastGenerated os = Some g -> forall (h : Key) (ks : list Key),
  hd_error (ringAfter N os h ks) = Some g.
Proof.
  induction os as [|o os IH]; intros Hg h ks; [discriminate|].
  cbn [lastGenerated] in Hg. cbn [ringAfter].
  destruct (lastGenerated os) as [g'|] eqn:Hlast.
  - apply IH. exact Hg.
  - destruct (err o) eqn:He; [discriminate|]. injection Hg as <-.
    unfold installed. rewrite He. apply ringAfter_failures. exact Hlast.
Qed.

Lemma reachable_wf (r0 : KeyRotator) (w0 : World) (r : KeyRotator)
  (w : World) :
  wf r0 w0 -> reachable r0 w0 r w ->
  wf r w /\ cap (keys r) = cap (keys r0).
Proof.
  intros Hwf0 Hreach. induction Hreach as [|r w e r' w' _ IH Hrot].
  - split; [exact Hwf0|reflexivity].
  - destruct IH as [Hwf Hcap].
    destruct (Nat.eq_dec (cap (keys r)) 0) as [Hz|Hnz].
    + rewrite (rotate_cap0 r w Hwf Hz) in Hrot. discriminate.
    + destruct (rotate_wf r w Hwf ltac:(lia)) as (r1 & w1 & Hrot1 & Hpost).
      rewrite Hrot1 in Hrot. injection Hrot as _ <- <-.
      destruct Hpost. split; [assumption|congruence].
Qed.

Lemma key_neq (a b : byte) (n : nat) :
  a <> b -> Vector.const a (S n) <> Vector.const b (S n).
Proof.
  intros Hab H. apply Hab.
  change a with (Vector.hd (Vector.const a (S n))).
  rewrite H. reflexivity.
Qed.

(** ** The key ring under [rotate] *)

(** What a failed read leaves behind on a non-empty ring of capacity at
    least one: [rotate] returns the error and stores no new key, but the
    ring has already grown and shifted, so the old head stays at index 0 and
    is followed by the old ring cut to capacity minus one; that ring is what
    the sink is given. *)
Lemma rotate_failure_shifts_ring (r : KeyRotator) (w : World)
  (e : error) (k : Key) (rest : list Key) :
  wf r w -> 1 <= cap (keys r) ->
  ring r w = k :: rest ->
  err (nextOutcome w) = Some e ->
  exists r' w',
    rotate r w = Normal (Some e, r', w') /\
    ring r' w' = k :: firstn (cap (keys r) - 1) (k :: rest) /\
    events w' = events w ++ [EvSetSessionTicketKeys (ring r' w')] /\
    sessionTicketKeys (config w') = ring r' w'.
Proof.
  intros Hwf Hc Hring He.
  destruct (rotate_wf r w Hwf Hc) as (r' & w' & Hrot & Hpost).
  destruct Hpost. exists r', w'. rewrite He in Hrot.
  split; [exact Hrot|]. split; [|split; assumption].
  assert (Hlen : 1 <= len (keys r)).
  { rewrite <- (wf_ring_length r w Hwf), Hring. cbn [length]. lia. }
  rewrite post_ring0. unfold installed. rewrite He.
  rewrite (wf_head r w Hwf Hlen), Hring. reflexivity.
Qed.

(** C1: a failed read should leave the ring as it was, and [rotate] guards
    the store of the new key with [err == nil] to that end; but it has grown
    and shifted the ring before it reads. In scenario B (capacity 3, ring
    [[k1]], the second read failing) the ring after the failed call is
    [[k1; k1]], and that is what the sink receives; on the full ring
    [[k3; k2; k1]] a failed read leaves [[k3; k3; k2]], [k1] being dropped
    for no new key. *)
Lemma rotate_failure_changes_ring :
  seeded 3 [ok k1; failed "entropy"%string] 1 = Normal (rotatorB, worldB) /\
  ring rotatorB worldB = [k1] /\
  (exists r' w',
     rotate rotatorB worldB = Normal (Some "entropy"%string, r', w') /\
     ring r' w' = [k1; k1] /\
     ring r' w' <> ring rotatorB worldB /\
     sessionTicketKeys (config w') = [k1; k1]) /\
  ringOf (seeded 3 [ok k1; ok k2; ok k3; failed "entropy"%string] 3)
    = Some [k3; k2; k1] /\
  ringOf (seeded 3 [ok k1; ok k2; ok k3; failed "entropy"%string] 4)
    = Some [k3; k3; k2].
Proof.
  split; [reflexivity|]. split; [reflexivity|].
  split; [|split; reflexivity].
  do 2 eexists. split; [reflexivity|]. split; [reflexivity|].
  split; [|reflexivity]. cbn. discriminate.
Qed.

(** C2: on a rotator of capacity at least one, the [k]-th of a run of
    successful rotations puts the [k]-th generated key at index 0 and the
    previous ring, cut to capacity minus one, behind it; the ring never
    exceeds the capacity, and it is the capacity's worth of the newest keys,
    newest first. *)
Theorem rotate_success_ring (r : KeyRotator) (w : World) (m k : nat) :
  wf r w -> 1 <= cap (keys r) ->
  allOk (upcoming m w) ->
  1 <= k <= m ->
  exists rp wp rk wk,
    rotations (k - 1) r w = Normal (rp, wp) /\
    rotate rp wp = Normal (None, rk, wk) /\
    rotations k r w = Normal (rk, wk) /\
    hd_error (ring rk wk) = nth_error (map buf (upcoming m w)) (k - 1) /\
    tl (ring rk wk) = firstn (cap (keys r) - 1) (ring rp wp) /\
    length (ring rk wk) <= cap (keys r) /\
    ring rk wk = firstn (cap (keys r))
                   (rev (firstn k (map buf (upcoming m w))) ++ ring r w).
Proof.
  intros Hwf Hc Hok Hk.
  destruct (rotations_wf (k - 1) r w Hwf Hc) as (rp & wp & Hrun & Hwfp & Hcp & _).
  destruct (rotate_wf rp wp Hwfp ltac:(lia)) as (rk & wk & Hrot & Hpost).
  destruct Hpost.
  assert (Hnext : nextOutcome wp
                  = script (activeReader w) (pos (activeReader w) + (k - 1))).
  { unfold nextOutcome.
    rewrite (rotations_reader (k - 1) r w Hwf Hc rp wp Hrun).
    cbn [script pos]. f_equal. lia. }
  assert (Hnth : nth_error (upcoming m w) (k - 1) = Some (nextOutcome wp))
    by (rewrite Hnext; apply upcoming_nth; lia).
  assert (Herr : err (nextOutcome wp) = None).
  { unfold allOk in Hok. rewrite Forall_forall in Hok. apply Hok.
    eapply nth_error_In. exact Hnth. }
  assert (HSk : rotations k r w = Normal (rk, wk)).
  { replace k with (S (k - 1)) by lia. rewrite rotations_snoc, Hrun.
    cbn [bind]. rewrite Hrot. reflexivity. }
  exists rp, wp, rk, wk. rewrite Herr in Hrot.
  split; [exact Hrun|]. split; [exact Hrot|]. split; [exact HSk|].
  split; [|split; [|split]].
  - rewrite post_ring0, nth_error_map, Hnth. unfold installed.
    rewrite Herr. reflexivity.
  - rewrite post_ring0, Hcp. reflexivity.
  - rewrite (wf_ring_length rk wk post_wf0).
    destruct post_wf0 as (_ & _ & Hle). lia.
  - destruct (rotations_wf k r w Hwf Hc) as (r2 & w2 & Hrun2 & _ & _ & Hr2).
    rewrite HSk in Hrun2. injection Hrun2 as <- <-.
    rewrite Hr2, firstn_map, upcoming_firstn by lia.
    apply ringAfter_allOk; [exact Hc| |].
    + rewrite <- (upcoming_firstn m k w) by lia.
      apply allOk_firstn. exact Hok.
    + rewrite (wf_ring_length r w Hwf). apply Hwf.
Qed.

Lemma rotate_success_ring_witness :
  exists rp wp rk wk,
    rotations 3 rotatorA (worldA [ok k1; ok k2; ok k3; ok k4])
      = Normal (rp, wp) /\
    rotate rp wp = Normal (None, rk, wk) /\
    rotations 4 rotatorA (worldA [ok k1; ok k2; ok k3; ok k4])
      = Normal (rk, wk) /\
    hd_error (ring rk wk) = Some k4 /\
    tl (ring rk wk) = firstn 2 (ring rp wp) /\
    length (ring rk wk) <= 3 /\
    ring rk wk = [k4; k3; k2].
Proof.
  apply (rotate_success_ring rotatorA (worldA [ok k1; ok k2; ok k3; ok k4])
           4 4).
  - unfold wf. cbn. lia.
  - cbn. lia.
  - repeat constructor.
  - lia.
Defined.

(** Scenario A: capacity 3, three rotations give [[k3; k2; k1]], a fourth
    gives [[k4; k3; k2]]. *)
Example scenario_A :
  newRotator 3 3600 0 (worldWith [ok k1; ok k2; ok k3; ok k4])
    = Normal (rotatorA, worldA [ok k1; ok k2; ok k3; ok k4]) /\
  ringOf (seeded 3 [ok k1; ok k2; ok k3; ok k4] 3) = Some [k3; k2; k1] /\
  ringOf (seeded 3 [ok k1; ok k2; ok k3; ok k4] 4) = Some [k4; k3; k2].
Proof. repeat split. Qed.

(** C3: from construction with capacity [n] on, through any number of calls
    of [rotate], whatever their reads give, the length of the ring stays
    between 0 and [n]. *)
Theorem ring_length_bounded (n d : Z) (st : Chan) (w : World)
  (r0 : KeyRotator) (w0 : World) (r : KeyRotator) (w' : World) :
  newRotator n d st w = Normal (r0, w0) ->
  reachable r0 w0 r w' ->
  (0 <= Z.of_nat (len (keys r)) <= n)%Z /\
  Z.of_nat (cap (keys r)) = n /\
  length (ring r w') = len (keys r).
Proof.
  intros Hnew Hreach.
  pose proof (newRotator_normal n d st w r0 w0 Hnew) as Hn.
  destruct (newRotator_wf n d st w Hn) as (r1 & w1 & Hnew1 & Hwf0 & Hc0 & _).
  rewrite Hnew in Hnew1. injection Hnew1 as <- <-.
  destruct (reachable_wf r0 w0 r w' Hwf0 Hreach) as [Hwf Hcap].
  split; [|split].
  - destruct Hwf as (_ & _ & Hle). lia.
  - lia.
  - apply wf_ring_length. exact Hwf.
Qed.

Lemma ring_length_bounded_witness :
  exists r w',
    (0 <= Z.of_nat (len (keys r)) <= 3)%Z /\
    Z.of_nat (cap (keys r)) = 3%Z /\
    length (ring r w') = len (keys r).
Proof.
  destruct (rotate rotatorB worldB) as [[[e r] w']|msg] eqn:Hrot;
    [|discriminate Hrot].
  exists r, w'.
  apply (ring_length_bounded 3 3600 0
           (worldWith [ok k1; failed "entropy"%string])
           rotatorA (worldA [ok k1; failed "entropy"%string])).
  - reflexivity.
  - apply (reach_rotate _ _ rotatorB worldB e r w'); [|exact Hrot].
    apply (reach_rotate _ _ rotatorA
             (worldA [ok k1; failed "entropy"%string]) None rotatorB worldB);
      [apply reach_init|reflexivity].
Defined.

(** C4: once a rotation has succeeded, index 0 of the ring holds the key of
    the last success, however many failed rotations have followed it. *)
Theorem newest_key_at_front (r : KeyRotator) (w : World) (k : nat)
  (g : Key) :
  wf r w -> 1 <= cap (keys r) ->
  lastGenerated (upcoming k w) = Some g ->
  exists r' w',
    rotations k r w = Normal (r', w') /\
    hd_error (ring r' w') = Some g.
Proof.
  intros Hwf Hc Hlast.
  destruct (rotations_wf k r w Hwf Hc) as (r' & w' & Hrun & _ & _ & Hring).
  exists r', w'. split; [exact Hrun|].
  rewrite Hring. apply ringAfter_lastGenerated. exact Hlast.
Qed.

Lemma newest_key_at_front_witness :
  exists r' w',
    rotations 4 rotatorA
      (worldA [ok k1; ok k2; failed "entropy"%string; failed "entropy"%string])
      = Normal (r', w') /\
    hd_error (ring r' w') = Some k2.
Proof.
  apply (newest_key_at_front rotatorA _ 4 k2).
  - unfold wf. cbn. lia.
  - cbn. lia.
  - reflexivity.
Defined.

(** C5, as the code has it: after capacity plus one successful rotations
    whose keys are pairwise distinct and all differ from the key [t] that
    sat at the tail of the ring, [t] is no longer in the ring. *)
Theorem oldest_key_evicted (r : KeyRotator) (w : World) (t : Key) :
  wf r w -> 1 <= cap (keys r) ->
  allOk (upcoming (S (cap (keys r))) w) ->
  ring r w <> [] ->
  t = last (ring r w) zeroKey ->
  NoDup (t :: map buf (upcoming (S (cap (keys r))) w)) ->
  exists r' w',
    rotations (S (cap (keys r))) r w = Normal (r', w') /\
    ~ In t (ring r' w').
Proof.
  intros Hwf Hc Hok _ _ Hnd.
  destruct (rotations_wf (S (cap (keys r))) r w Hwf Hc)
    as (r' & w' & Hrun & _ & _ & Hring).
  exists r', w'. split; [exact Hrun|].
  rewrite Hring, ringAfter_allOk; [|exact Hc|exact Hok|].
  - rewrite firstn_app.
    replace (cap (keys r) - length (rev (map buf (upcoming (S (cap (keys r))) w))))
      with 0
      by (unfold upcoming;
          rewrite length_rev, !length_map, length_seq; lia).
    cbn [firstn]. rewrite app_nil_r. intros Hin.
    apply In_firstn, in_rev in Hin.
    inversion Hnd as [|x l Hnotin _]. contradiction.
  - rewrite (wf_ring_length r w Hwf). apply Hwf.
Qed.

Lemma oldest_key_evicted_witness :
  exists r' w',
    rotations 2 rotatorE worldE = Normal (r', w') /\ ~ In k1 (ring r' w').
Proof.
  apply (oldest_key_evicted rotatorE worldE k1).
  - unfold wf. cbn. lia.
  - cbn. lia.
  - repeat constructor.
  - discriminate.
  - reflexivity.
  - repeat constructor; cbn; intros H;
      repeat (destruct H as [H|H]; [revert H; apply key_neq; discriminate|]);
      exact H.
Defined.

(** C5, as stated, fails when a generated key repeats the old tail key:
    capacity 1, ring [[k1]], the two reads giving [k2] then [k1] (distinct
    from each other) leave the ring [[k1]], the old tail key still in it. *)
Lemma regenerated_tail_key_stays :
  seeded 1 [ok k1; ok k2; ok k1] 1 = Normal (rotatorE, worldF) /\
  cap (keys rotatorE) = 1 /\
  last (ring rotatorE worldF) zeroKey = k1 /\
  allOk (upcoming 2 worldF) /\
  List.map buf (upcoming 2 worldF) = [k2; k1] /\
  NoDup (List.map buf (upcoming 2 worldF)) /\
  exists r' w',
    rotations 2 rotatorE worldF = Normal (r', w') /\
    ring r' w' = [k1] /\
    In k1 (ring r' w').
Proof.
  split; [reflexivity|]. split; [reflexivity|]. split; [reflexivity|].
  split; [repeat constructor|]. split; [reflexivity|].
  split.
  - repeat constructor; cbn; intros H;
      repeat (destruct H as [H|H]; [revert H; apply key_neq; discriminate|]);
      exact H.
  - do 2 eexists. split; [reflexivity|]. split; [reflexivity|]. now left.
Qed.

(** ** The seeding wrapper *)

(** What [WithSessionTicketKeyRotation] does for a capacity of at least one,
    by the outcome of the first read. *)
Lemma seeding_cases (n d : Z) (st : Chan) (w : World) :
  (1 <= n)%Z ->
  exists e r' w1,
    e = err (nextOutcome w) /\
    rotate (mkRotator d (mkSlice 0 0 (Z.to_nat n)) st)
           (set_keysArray w (repeat zeroKey (Z.to_nat n)))
      = Normal (e, r', w1) /\
    rotate_post (mkRotator d (mkSlice 0 0 (Z.to_nat n)) st)
                (set_keysArray w (repeat zeroKey (Z.to_nat n))) r' w1 /\
    WithSessionTicketKeyRotation n d st w =
      Normal (None, match e with
                    | Some _ => disableSessionTickets w1
                    | None => group_Add r' w1
                    end).
Proof.
  intros Hn.
  destruct (newRotator_wf n d st w ltac:(lia))
    as (r0 & w0 & Hnew & Hwf & Hcap & _ & _ & -> & ->).
  destruct (rotate_wf _ _ Hwf ltac:(lia)) as (r' & w1 & Hrot & Hpost).
  exists (err (nextOutcome w)), r', w1.
  rewrite nextOutcome_set_keysArray in Hrot.
  split; [reflexivity|]. split; [exact Hrot|]. split; [exact Hpost|].
  unfold WithSessionTicketKeyRotation. rewrite Hnew. cbn [bind]. rewrite Hrot.
  cbn [bind]. destruct (err (nextOutcome w)); reflexivity.
Qed.

(** The rotator the option hands to the group is well formed and has room
    for a key: its [Start] loop can rotate without panicking. *)
Lemma registered_rotator_wf (n d : Z) (st : Chan) (w : World) :
  (1 <= n)%Z -> err (nextOutcome w) = None ->
  exists r' w',
    WithSessionTicketKeyRotation n d st w = Normal (None, w') /\
    group w' = group w ++ [r'] /\
    wf r' w' /\ 1 <= cap (keys r').
Proof.
  intros Hn He.
  destruct (seeding_cases n d st w Hn) as (e & r' & w1 & -> & _ & Hpost & HW).
  rewrite He in HW. destruct Hpost.
  exists r', (group_Add r' w1). split; [exact HW|].
  cbn [group_Add emit group]. split; [now rewrite post_group0|].
  split; [exact post_wf0|]. rewrite post_cap0. cbn [keys cap]. lia.
Qed.

(** A seeding that succeeds, evaluated: the key is published, then the
    rotator is added to the group, and the flag stays off. *)
Example seeding_success :
  exists w',
    WithSessionTicketKeyRotation 3 3600 0 (worldWith [ok k1])
      = Normal (None, w') /\
    events w' = [EvSetSessionTicketKeys [k1]; EvGroupAdd rotatorB] /\
    group w' = [rotatorB] /\
    SessionTicketsDisabled (config w') = false.
Proof. eexists. repeat split. Qed.

(** The option panics instead of returning when [n] is not positive. *)
Lemma seeding_nonpositive (n d : Z) (st : Chan) (w : World) :
  (n <= 0)%Z ->
  exists msg, WithSessionTicketKeyRotation n d st w = Panic msg.
Proof.
  intros Hn. unfold WithSessionTicketKeyRotation, newRotator, make.
  destruct (n <? 0)%Z eqn:Hlt; [eexists; reflexivity|].
  apply Z.ltb_ge in Hlt. assert (n = 0%Z) by lia. subst n.
  eexists. reflexivity.
Qed.

(** C6: the option returns no error either way. When the seeding rotation
    fails, the flag is set and the group is left as it was, no [g.Add]
    having happened; when it succeeds, the rotator is added to the group and
    the flag is left as it was. *)
Theorem seeding_outcome (n d : Z) (st : Chan) (w : World) :
  (1 <= n)%Z ->
  exists w',
    WithSessionTicketKeyRotation n d st w = Normal (None, w') /\
    match err (nextOutcome w) with
    | Some _ =>
        SessionTicketsDisabled (config w') = true /\
        group w' = group w /\
        (forall r ev, events w' = events w ++ ev -> ~ In (EvGroupAdd r) ev)
    | None =>
        exists r',
          group w' = group w ++ [r'] /\
          (exists ev, events w' = events w ++ ev ++ [EvGroupAdd r']) /\
          SessionTicketsDisabled (config w') =
            SessionTicketsDisabled (config w) /\
          ring r' w' = [buf (nextOutcome w)]
    end.
Proof.
  intros Hn.
  destruct (seeding_cases n d st w Hn) as (e & r' & w1 & -> & Hrot & Hpost & HW).
  destruct Hpost.
  cbn [group events config set_keysArray SessionTicketsDisabled] in *.
  eexists. split; [exact HW|].
  destruct (err (nextOutcome w)) eqn:He.
  - unfold disableSessionTickets, emit, set_config.
    cbn [config group events SessionTicketsDisabled].
    split; [reflexivity|]. split; [exact post_group0|].
    intros r ev Hev. rewrite post_events0, <- app_assoc in Hev.
    apply app_inv_head in Hev. subst ev. cbn.
    intros [H|[H|H]]; try discriminate; exact H.
  - exists r'. unfold group_Add, emit.
    cbn [config group events SessionTicketsDisabled].
    split; [now rewrite post_group0|].
    split; [|split; [exact post_flag0|]].
    + eexists. rewrite post_events0, <- app_assoc. reflexivity.
    + unfold ring in *. cbn [keysArray].
      rewrite post_ring0. unfold installed.
      rewrite nextOutcome_set_keysArray, He.
      cbn [keys len view firstn]. now rewrite firstn_nil.
Qed.

Lemma seeding_outcome_witness :
  exists w',
    WithSessionTicketKeyRotation 3 3600 0 (worldWith [failed "entropy"%string])
      = Normal (None, w') /\
    SessionTicketsDisabled (config w') = true /\
    group w' = [] /\
    (forall r ev, events w' = [] ++ ev -> ~ In (EvGroupAdd r) ev).
Proof.
  apply (seeding_outcome 3 3600 0 (worldWith [failed "entropy"%string])).
  lia.
Defined.

(** C9: when the first read fails, the one call of [rotate] gives the sink
    the list made of the single all-zero key, and only then is the flag
    set; nothing else is done to the configuration. *)
Theorem failed_seeding_publishes_zero_key (n d : Z) (st : Chan) (w : World)
  (e : error) :
  (1 <= n)%Z ->
  err (nextOutcome w) = Some e ->
  exists w',
    WithSessionTicketKeyRotation n d st w = Normal (None, w') /\
    events w' = events w ++ [EvSetSessionTicketKeys [zeroKey];
                             EvSessionTicketsDisabled] /\
    sessionTicketKeys (config w') = [zeroKey] /\
    Vector.to_list zeroKey = repeat x00 32.
Proof.
  intros Hn He.
  destruct (seeding_cases n d st w Hn) as (e' & r' & w1 & -> & Hrot & Hpost & HW).
  destruct Hpost. rewrite He in HW.
  eexists. split; [exact HW|].
  assert (Hring : ring r' w1 = [zeroKey]).
  { rewrite post_ring0. unfold installed, ring.
    rewrite nextOutcome_set_keysArray, He.
    cbn [keys len view firstn keysArray set_keysArray].
    rewrite firstn_nil.
    destruct (Z.to_nat n) eqn:Hz; [lia|]. reflexivity. }
  unfold disableSessionTickets, emit, set_config.
  cbn [config events sessionTicketKeys].
  rewrite post_events0, post_sink0, Hring, <- app_assoc.
  repeat split.
Qed.

Lemma failed_seeding_publishes_zero_key_witness :
  exists w',
    WithSessionTicketKeyRotation 3 3600 0 (worldWith [failed "entropy"%string])
      = Normal (None, w') /\
    events w' = [] ++ [EvSetSessionTicketKeys [zeroKey];
                       EvSessionTicketsDisabled] /\
    sessionTicketKeys (config w') = [zeroKey] /\
    Vector.to_list zeroKey = repeat x00 32.
Proof.
  apply (failed_seeding_publishes_zero_key 3 3600 0
           (worldWith [failed "entropy"%string]) "entropy"%string).
  - lia.
  - reflexivity.
Defined.

(** ** The run loop and the shutdown handshake *)

Lemma step_pastSelect (l : Label) (s s' : System) :
  pastSelect s -> step l s = Some s' ->
  pastSelect s' /\ rot s' = rot s /\ world s' = world s.
Proof.
  destruct s as [r w lp sp cl nc tk]. unfold pastSelect. cbn [loopPC].
  intros Hp H. step_cases H.
  destruct lp; try contradiction; try discriminate;
    destruct l; try discriminate;
    destruct sp; try discriminate;
    repeat match type of H with
           | (if ?b then _ else _) = _ => destruct b
           end;
    try discriminate;
    injection H as <-; cbn; auto.
Qed.

Lemma exec_pastSelect (ls : list Label) : forall (s s' : System),
  pastSelect s -> exec ls s = Some s' ->
  pastSelect s' /\ rot s' = rot s /\ world s' = world s.
Proof.
  induction ls as [|l ls IH]; intros s s' Hp H; cbn [exec] in H.
  - injection H as <-. auto.
  - destruct (step l s) as [s1|] eqn:Hs; [|discriminate].
    destruct (step_pastSelect l s s1 Hp Hs) as (Hp1 & Hr & Hw).
    destruct (IH s1 s' Hp1 H) as (Hp' & Hr' & Hw').
    repeat split; [exact Hp'|congruence|congruence].
Qed.

Lemma step_acknowledged (l : Label) (s s' : System) :
  acknowledged s -> step l s = Some s' -> acknowledged s'.
Proof.
  destruct s as [r w lp sp cl nc tk]. unfold acknowledged. cbn [loopPC].
  intros Hp H. step_cases H.
  destruct Hp as [-> | ->];
    destruct l; try discriminate;
    destruct sp; try discriminate;
    repeat match type of H with
           | (if ?b then _ else _) = _ => destruct b
           end;
    try discriminate;
    injection H as <-; cbn; auto.
Qed.

Lemma exec_acknowledged (ls : list Label) : forall (s s' : System),
  acknowledged s -> exec ls s = Some s' -> acknowledged s'.
Proof.
  induction ls as [|l ls IH]; intros s s' Hp H; cbn [exec] in H.
  - injection H as <-. exact Hp.
  - destruct (step l s) as [s1|] eqn:Hs; [|discriminate].
    eapply IH; [|exact H]. eapply step_acknowledged; eassumption.
Qed.

Lemma acknowledged_pastSelect (s : System) : acknowledged s -> pastSelect s.
Proof.
  unfold acknowledged, pastSelect. intros [-> | ->]; exact I.
Qed.

Lemma step_handshakeInv (c : Chan) (l : Label) (s s' : System) :
  handshakeInv c s -> step l s = Some s' -> handshakeInv c s'.
Proof.
  destruct s as [r w lp sp cl nc tk].
  unfold handshakeInv, beforeStop, acknowledged.
  cbn [loopPC stopPC closed nextChan].
  intros Hinv H. step_cases H.
  destruct l, lp, sp; try discriminate;
    try (destruct (rotate r w) as [[[e r1] w1]|msg]);
    repeat match type of H with
           | (if ?b then _ else _) = _ => destruct b eqn:?
           end;
    try discriminate;
    injection H as <-; cbn [loopPC stopPC closed nextChan];
    repeat match goal with
           | H : _ /\ _ |- _ => destruct H
           | H : _ \/ _ |- _ => destruct H
           | H : False |- _ => destruct H
           end;
    subst; try discriminate; cbn in *; try discriminate;
    try rewrite Nat.eqb_refl in *; try discriminate;
    repeat match goal with
           | H : LClose _ = LClose _ |- _ => injection H as ->
           end;
    try rewrite Nat.eqb_refl in *; try discriminate;
    auto 8.
Qed.

Lemma exec_handshakeInv (c : Chan) (ls : list Label) : forall (s s' : System),
  handshakeInv c s -> exec ls s = Some s' -> handshakeInv c s'.
Proof.
  induction ls as [|l ls IH]; intros s s' Hinv H; cbn [exec] in H.
  - injection H as <-. exact Hinv.
  - destruct (step l s) as [s1|] eqn:Hs; [|discriminate].
    eapply IH; [|exact H]. eapply step_handshakeInv; eassumption.
Qed.

Lemma exec_ticks (k : nat) : forall (s : System),
  wf (rot s) (world s) -> 1 <= cap (keys (rot s)) -> loopPC s = LSelect ->
  exists s',
    exec (repeat Tick k) s = Some s' /\
    loopPC s' = LSelect /\
    rotations k (rot s) (world s) = Normal (rot s', world s') /\
    wf (rot s') (world s') /\
    stopPC s' = stopPC s /\ closed s' = closed s.
Proof.
  induction k as [|k IH]; intros s Hwf Hc Hpc.
  - exists s. split; [reflexivity|]. split; [exact Hpc|].
    split; [reflexivity|]. split; [exact Hwf|]. split; reflexivity.
  - destruct (rotate_wf _ _ Hwf Hc) as (r1 & w1 & Hrot & Hpost).
    destruct Hpost.
    set (s1 := mkSystem r1 w1 LSelect (stopPC s) (closed s) (nextChan s)
                        (ticker s)).
    assert (Hstep : step Tick s = Some s1).
    { unfold step, crashed, Start, Start_tick. rewrite Hpc, Hrot.
      reflexivity. }
    destruct (IH s1 post_wf0 ltac:(cbn; lia) eq_refl)
      as (s' & Hex & Hpc' & Hrun & Hwf' & Hsp & Hcl).
    exists s'. cbn [repeat exec rotations]. rewrite Hstep, Hrot. cbn [bind].
    split; [exact Hex|]. split; [exact Hpc'|]. split; [exact Hrun|].
    split; [exact Hwf'|]. split; assumption.
Qed.

(** C7: a loop waiting in its [select] handles any number of ticks,
    whatever [rotate] returns on them, and is back in its [select] after
    each; a tick on which [rotate] returns an error leaves it there with the
    error dropped; and the one move that takes it out of the [select] is
    the receipt of a stop request. *)
Theorem loop_survives_rotate_errors (s : System) (k : nat) :
  wf (rot s) (world s) -> 1 <= cap (keys (rot s)) -> loopPC s = LSelect ->
  (exists s',
     exec (repeat Tick k) s = Some s' /\
     loopPC s' = LSelect /\
     rotations k (rot s) (world s) = Normal (rot s', world s')) /\
  (forall e r' w',
     rotate (rot s) (world s) = Normal (Some e, r', w') ->
     exists s1,
       step Tick s = Some s1 /\ loopPC s1 = LSelect /\
       rot s1 = r' /\ world s1 = w') /\
  (forall l s1,
     step l s = Some s1 -> loopPC s1 <> LSelect ->
     l = Handoff /\ exists q, stopPC s = SSend q /\ loopPC s1 = LClose q).
Proof.
  intros Hwf Hc Hpc. split; [|split].
  - destruct (exec_ticks k s Hwf Hc Hpc) as (s' & Hex & Hpc' & Hrun & _).
    exists s'. auto.
  - intros e r' w' Hrot. eexists.
    unfold step, crashed, Start, Start_tick. rewrite Hpc, Hrot.
    split; [reflexivity|]. cbn. auto.
  - intros l s1 Hstep Hne.
    destruct (rotate_wf _ _ Hwf Hc) as (r1 & w1 & Hrot & _).
    destruct s as [r w lp sp cl nc tk]. cbn [loopPC rot world stopPC] in *.
    subst lp. step_cases Hstep. rewrite ?Hrot in Hstep.
    destruct l, sp; try discriminate;
      repeat match type of Hstep with
             | (if ?b then _ else _) = _ => destruct b
             end;
      try discriminate;
      injection Hstep as <-; cbn [loopPC] in Hne;
      try (exfalso; apply Hne; reflexivity).
    split; [reflexivity|]. eexists. split; reflexivity.
Qed.

Lemma loop_survives_rotate_errors_witness :
  (exists s',
     exec (repeat Tick 2) runningB = Some s' /\
     loopPC s' = LSelect /\
     rotations 2 (rot runningB) (world runningB)
       = Normal (rot s', world s')) /\
  (forall e r' w',
     rotate (rot runningB) (world runningB) = Normal (Some e, r', w') ->
     exists s1,
       step Tick runningB = Some s1 /\ loopPC s1 = LSelect /\
       rot s1 = r' /\ world s1 = w') /\
  (forall l s1,
     step l runningB = Some s1 -> loopPC s1 <> LSelect ->
     l = Handoff /\
     exists q, stopPC runningB = SSend q /\ loopPC s1 = LClose q).
Proof.
  apply (loop_survives_rotate_errors runningB 2).
  - unfold wf. cbn. lia.
  - cbn. lia.
  - reflexivity.
Defined.

(** The two reads of that run both fail, and the loop is still in its
    [select]. *)
Example ticks_with_failed_reads :
  List.map err (upcoming 2 (world runningB))
    = [Some "entropy"%string; Some "EOF"%string] /\
  option_map loopPC (exec [Tick; Tick] runningB) = Some LSelect.
Proof. split; reflexivity. Qed.

(** C8, as the code has it: in every state the two goroutines can reach,
    [Stop] has returned only if the loop has closed [q], which it does after
    leaving its [select] for good and before [return nil]; from the
    acknowledgment on, nothing changes the rotator or the world (no
    rotation, no write to the sink); and a pass through the [select] does
    one of two things: a tick, which rotates and acknowledges nothing, or
    the receipt of the stop request, which rotates nothing, now or later. *)
Theorem shutdown_handshake (r : KeyRotator) (w : World) (c : Chan)
  (ls : list Label) (s : System) :
  exec ls (initial r w c) = Some s ->
  (stopPC s = SDone -> acknowledged s /\ isClosed c s = true) /\
  (acknowledged s ->
   forall ls' s', exec ls' s = Some s' ->
     acknowledged s' /\ rot s' = rot s /\ world s' = world s) /\
  (loopPC s = LSelect ->
   forall l s', step l s = Some s' ->
     match l with
     | Tick =>
         (exists e r' w',
            rotate (rot s) (world s) = Normal (e, r', w') /\
            rot s' = r' /\ world s' = w' /\ loopPC s' = LSelect /\
            closed s' = closed s /\ stopPC s' = stopPC s) \/
         crashed s' = true
     | Handoff =>
         rot s' = rot s /\ world s' = world s /\
         forall ls'' s'', exec ls'' s' = Some s'' ->
           rot s'' = rot s /\ world s'' = world s /\ loopPC s'' <> LSelect
     | _ => loopPC s' = LSelect /\ rot s' = rot s /\ world s' = world s
     end).
Proof.
  intros Hex.
  assert (Hinv : handshakeInv c s).
  { apply (exec_handshakeInv c ls (initial r w c) s); [|exact Hex].
    unfold handshakeInv, initial, beforeStop. cbn. auto. }
  split; [|split].
  - intros Hdone. unfold handshakeInv in Hinv. rewrite Hdone in Hinv.
    destruct Hinv as [Hack Hcl]. split; [exact Hack|].
    unfold isClosed. rewrite Hcl. cbn. now rewrite Nat.eqb_refl.
  - intros Hack ls' s' Hex'.
    split; [eapply exec_acknowledged; eassumption|].
    apply (exec_pastSelect ls' s s' (acknowledged_pastSelect s Hack) Hex').
  - intros Hpc l s' Hstep.
    destruct s as [r0 w0 lp sp cl nc tk]. cbn [loopPC] in Hpc. subst lp.
    step_cases Hstep.
    destruct l; try discriminate.
    + cbn [rot world].
      destruct (rotate r0 w0) as [[[e r1] w1]|msg];
        injection Hstep as <-; [left|right; reflexivity].
      exists e, r1, w1. cbn. auto 8.
    + destruct sp; try discriminate. injection Hstep as <-. cbn. auto.
    + destruct sp; try discriminate. injection Hstep as <-.
      cbn [rot world]. split; [reflexivity|]. split; [reflexivity|].
      intros ls'' s'' Hex''.
      pose proof (fun H => exec_pastSelect ls'' _ s'' H Hex'') as Hpast.
      destruct (Hpast I) as (Hp & Hr & Hw).
      cbn [rot world] in Hr, Hw. split; [exact Hr|]. split; [exact Hw|].
      intros Hsel. unfold pastSelect in Hp. now rewrite Hsel in Hp.
    + destruct sp; try discriminate.
      destruct (existsb (Nat.eqb q) cl); [|discriminate].
      injection Hstep as <-. cbn. auto.
Qed.

Lemma shutdown_handshake_witness :
  (stopPC stoppedB = SDone ->
   acknowledged stoppedB /\ isClosed 7 stoppedB = true) /\
  (acknowledged stoppedB ->
   forall ls' s', exec ls' stoppedB = Some s' ->
     acknowledged s' /\ rot s' = rot stoppedB /\ world s' = world stoppedB) /\
  (loopPC stoppedB = LSelect ->
   forall l s', step l stoppedB = Some s' ->
     match l with
     | Tick =>
         (exists e r' w',
            rotate (rot stoppedB) (world stoppedB) = Normal (e, r', w') /\
            rot s' = r' /\ world s' = w' /\ loopPC s' = LSelect /\
            closed s' = closed stoppedB /\ stopPC s' = stopPC stoppedB) \/
         crashed s' = true
     | Handoff =>
         rot s' = rot stoppedB /\ world s' = world stoppedB /\
         forall ls'' s'', exec ls'' s' = Some s'' ->
           rot s'' = rot stoppedB /\ world s'' = world stoppedB /\
           loopPC s'' <> LSelect
     | _ => loopPC s' = LSelect /\ rot s' = rot stoppedB /\
            world s' = world stoppedB
     end).
Proof.
  apply (shutdown_handshake rotatorB worldB 7
           [CallStart; CallStop None; Handoff; CloseQ; Wake] stoppedB).
  reflexivity.
Defined.

(** C8, as stated, fails on the word "exited": [Stop] can return while
    [Start] stands between [close(q)] and [return nil], its deferred
    [timer.Stop()] not yet run; [Start] returns one move later. *)
Lemma stop_returns_before_start_returns :
  exec [CallStart; CallStop None; Handoff; CloseQ; Wake]
       (initial rotatorB worldB 7) = Some stoppedB /\
  stopPC stoppedB = SDone /\
  loopPC stoppedB = LReturn /\
  (forall ret, loopPC stoppedB <> LDone ret) /\
  ticker stoppedB = true /\
  option_map loopPC (step ReturnNil stoppedB) = Some (LDone None) /\
  option_map ticker (step ReturnNil stoppedB) = Some false.
Proof.
  repeat split; try reflexivity. intros ret. discriminate.
Qed.

(** C10: the argument of [Stop] plays no part: under any schedule, the
    system ends in the same state whatever error each call of [Stop] is
    given. *)
Theorem stop_ignores_err (e1 e2 : option error) (ls : list Label)
  (s : System) :
  exec (List.map (withErr e1) ls) s = exec (List.map (withErr e2) ls) s.
Proof.
  revert s. induction ls as [|l ls IH]; intros s; [reflexivity|].
  cbn [List.map exec].
  assert (Hstep : step (withErr e1 l) s = step (withErr e2 l) s)
    by (destruct l; reflexivity).
  rewrite Hstep. destruct (step (withErr e2 l) s); [apply IH|reflexivity].
Qed.

(** ** More on [rotate] *)

Lemma firstn_repeat_le {A : Type} (a : A) (n m : nat) :
  n <= m -> firstn n (repeat a m) = repeat a n.
Proof.
  revert m. induction n as [|n IH]; intros m H; [reflexivity|].
  destruct m as [|m]; [lia|]. cbn. f_equal. apply IH. lia.
Qed.

Lemma ringAfter_allFailed (N : nat) (os : list ReadOutcome) (h : Key) :
  1 <= N -> allFailed os -> forall (ks : list Key),
  length ks <= N ->
  ringAfter N os h ks = firstn N (repeat h (length os) ++ ks).
Proof.
  intros HN Hfail. induction Hfail as [|o os Ho Hos IH]; intros ks Hks.
  - cbn. symmetry. apply firstn_all2. exact Hks.
  - cbn [ringAfter length]. unfold installed.
    destruct (err o) as [e|] eqn:He; [|contradiction].
    rewrite IH by (cbn [length]; rewrite length_firstn; lia).
    change (h :: firstn (N - 1) ks) with ([h] ++ firstn (N - 1) ks).
    rewrite app_assoc, firstn_app_firstn
      by (rewrite length_app; cbn [length]; lia).
    rewrite <- repeat_cons. reflexivity.
Qed.

(** X1: whatever the reads return, each rotation lengthens the ring by one
    until it is full: after [k] rotations its length is the smaller of the
    old length plus [k] and the capacity. *)
Theorem ring_length_after_rotations (k : nat) (r : KeyRotator) (w : World) :
  wf r w -> 1 <= cap (keys r) ->
  exists r' w',
    rotations k r w = Normal (r', w') /\
    len (keys r') = Nat.min (len (keys r) + k) (cap (keys r)) /\
    length (ring r' w') = Nat.min (len (keys r) + k) (cap (keys r)).
Proof.
  revert r w. induction k as [|k IH]; intros r w Hwf Hc.
  - exists r, w. split; [reflexivity|].
    rewrite (wf_ring_length r w Hwf). destruct Hwf as (_ & _ & Hle).
    split; lia.
  - destruct (rotate_wf r w Hwf Hc) as (r1 & w1 & Hrot & Hpost).
    destruct Hpost.
    destruct (IH r1 w1 post_wf0 ltac:(lia)) as (r' & w' & Hrun & Hlen & Hring).
    exists r', w'. cbn [rotations]. rewrite Hrot. cbn [bind].
    split; [exact Hrun|]. destruct Hwf as (_ & _ & Hle).
    rewrite Hring, Hlen, post_len0, post_cap0. split; lia.
Qed.

Lemma ring_length_after_rotations_witness :
  exists r' w',
    rotations 5 rotatorB worldB = Normal (r', w') /\
    len (keys r') = 3 /\ length (ring r' w') = 3.
Proof.
  apply (ring_length_after_rotations 5 rotatorB worldB).
  - unfold wf. cbn. lia.
  - cbn. lia.
Defined.

(** X2: a run of [k] rotations calls [SetSessionTicketKeys] exactly [k]
    times and records nothing else; every list it passes has between one
    and capacity keys; after the run the sink holds the ring; and neither
    the flag nor the group has been touched. *)
Theorem rotations_publish (k : nat) (r : KeyRotator) (w : World) :
  wf r w -> 1 <= cap (keys r) ->
  exists r' w' evs,
    rotations k r w = Normal (r', w') /\
    events w' = events w ++ evs /\
    length evs = k /\
    Forall (isPublish (cap (keys r))) evs /\
    (1 <= k ->
     sessionTicketKeys (config w') = ring r' w' /\
     last evs EvSessionTicketsDisabled
       = EvSetSessionTicketKeys (ring r' w')) /\
    SessionTicketsDisabled (config w') = SessionTicketsDisabled (config w) /\
    group w' = group w.
Proof.
  intros Hwf Hc. induction k as [|k IH].
  - exists r, w, []. cbn [rotations length]. rewrite app_nil_r.
    repeat split; try constructor; lia.
  - destruct IH as (r1 & w1 & evs & Hrun & Hev & Hlen & Hall & _ & Hflag & Hgrp).
    destruct (rotations_wf k r w Hwf Hc) as (r1' & w1' & Hrun' & Hwf1 & Hc1 & _).
    rewrite Hrun in Hrun'. injection Hrun' as <- <-.
    destruct (rotate_wf r1 w1 Hwf1 ltac:(lia)) as (r2 & w2 & Hrot & Hpost).
    destruct Hpost.
    exists r2, w2, (evs ++ [EvSetSessionTicketKeys (ring r2 w2)]).
    rewrite rotations_snoc, Hrun. cbn [bind]. rewrite Hrot.
    split; [reflexivity|].
    split; [rewrite post_events0, Hev, app_assoc; reflexivity|].
    split; [rewrite length_app; cbn [length]; lia|].
    split; [|split; [|split; congruence]].
    + apply Forall_app. split; [exact Hall|]. constructor; [|constructor].
      cbn [isPublish]. split.
      * rewrite post_ring0. discriminate.
      * rewrite (wf_ring_length r2 w2 post_wf0).
        destruct post_wf0 as (_ & _ & Hle). lia.
    + intros _. split; [exact post_sink0|]. apply last_last.
Qed.

Lemma rotations_publish_witness :
  exists r' w' evs,
    rotations 2 rotatorB worldB = Normal (r', w') /\
    events w' = events worldB ++ evs /\
    length evs = 2 /\
    Forall (isPublish 3) evs /\
    (1 <= 2 ->
     sessionTicketKeys (config w') = ring r' w' /\
     last evs EvSessionTicketsDisabled
       = EvSetSessionTicketKeys (ring r' w')) /\
    SessionTicketsDisabled (config w') = false /\
    group w' = [].
Proof.
  apply (rotations_publish 2 rotatorB worldB).
  - unfold wf. cbn. lia.
  - cbn. lia.
Defined.

(** X3: failed rotations push the retained keys out. After [j] failures in
    a row on a ring headed by [a], the ring is [j] more copies of [a] in
    front of the old ring, cut to capacity; from capacity minus one failures
    on, every slot holds [a]. *)
Theorem failures_flood_ring (j : nat) (r : KeyRotator) (w : World)
  (a : Key) (rest : list Key) :
  wf r w -> 1 <= cap (keys r) ->
  ring r w = a :: rest ->
  allFailed (upcoming j w) ->
  exists r' w',
    rotations j r w = Normal (r', w') /\
    ring r' w' = firstn (cap (keys r)) (repeat a j ++ a :: rest) /\
    (cap (keys r) - 1 <= j -> ring r' w' = repeat a (cap (keys r))).
Proof.
  intros Hwf Hc Hring Hfail.
  destruct (rotations_wf j r w Hwf Hc) as (r' & w' & Hrun & _ & _ & Hr').
  assert (Hlen : 1 <= len (keys r)).
  { rewrite <- (wf_ring_length r w Hwf), Hring. cbn [length]. lia. }
  assert (Hclosed : ring r' w'
                    = firstn (cap (keys r)) (repeat a j ++ a :: rest)).
  { rewrite Hr', (wf_head r w Hwf Hlen), Hring. cbn [hd].
    rewrite (ringAfter_allFailed (cap (keys r)) (upcoming j w) a Hc Hfail).
    - unfold upcoming. now rewrite length_map, length_seq.
    - rewrite <- Hring, (wf_ring_length r w Hwf). apply Hwf. }
  exists r', w'. split; [exact Hrun|]. split; [exact Hclosed|].
  intros Hj. rewrite Hclosed.
  change (a :: rest) with ([a] ++ rest).
  rewrite app_assoc, <- repeat_cons.
  change (a :: repeat a j) with (repeat a (S j)).
  rewrite firstn_app, firstn_repeat_le by lia.
  replace (cap (keys r) - length (repeat a (S j))) with 0
    by (rewrite repeat_length; lia).
  cbn [firstn]. apply app_nil_r.
Qed.

Lemma failures_flood_ring_witness :
  exists r' w',
    rotations 2 rotatorB worldB = Normal (r', w') /\
    ring r' w' = firstn 3 (repeat k1 2 ++ [k1]) /\
    (3 - 1 <= 2 -> ring r' w' = repeat k1 3).
Proof.
  apply (failures_flood_ring 2 rotatorB worldB k1 []).
  - unfold wf. cbn. lia.
  - cbn. lia.
  - reflexivity.
  - repeat constructor; discriminate.
Defined.

(** One call of [rotate] reads once, from the source [read] selects:
    [cfg.Rand] when it is set, the platform generator otherwise. *)
Lemma rotate_readers (r : KeyRotator) (w : World) (e : option error)
  (r' : KeyRotator) (w' : World) :
  rotate r w = Normal (e, r', w') ->
  match Rand (config w) with
  | Some rd => Rand (config w') = Some (advance 1 rd)
  | None =>
      Rand (config w') = None /\ cryptoRand w' = advance 1 (cryptoRand w)
  end.
Proof.
  unfold rotate. intros H.
  destruct (if len (keys r) <? cap (keys r)
            then ks <- reslice (keys r) 0 (len (keys r) + 1) ;;
                 Normal (set_keys r ks)
            else Normal r) as [r1|]; cbn [bind] in H; [|discriminate].
  destruct (reslice (keys r1) 1 (len (keys r1))) as [dst|];
    cbn [bind] in H; [|discriminate].
  destruct (reslice (keys r1) 0 (len (keys r1))) as [src|];
    cbn [bind] in H; [|discriminate].
  unfold read, io_ReadFull, rand_Read, fill in H.
  cbn [config set_keysArray cryptoRand] in H.
  destruct w as [[rnd flag sink] cr mem g ev].
  cbn [config Rand cryptoRand keysArray SessionTicketsDisabled
       sessionTicketKeys] in *.
  destruct rnd as [rd|];
    match type of H with
    | context [match err ?o with _ => _ end] => destruct (err o)
    end;
    unfold store in H; cbn [bind keysArray set_config set_cryptoRand] in H;
    repeat match type of H with
           | context [if ?b then _ else _] => destruct b
           end;
    cbn [bind] in H; try discriminate;
    injection H as _ _ <-; try split; reflexivity.
Qed.

(** X4: a run of [k] rotations makes exactly [k] reads, from the source
    [read] selects. With [cfg.Rand] set, it is that reader that is read [k]
    times; with [cfg.Rand] nil, the platform generator is read [k] times and
    [cfg.Rand] stays nil. *)
Theorem rotations_read_one_source (k : nat) (r : KeyRotator) (w : World) :
  wf r w -> 1 <= cap (keys r) ->
  exists r' w',
    rotations k r w = Normal (r', w') /\
    match Rand (config w) with
    | Some rd => Rand (config w') = Some (advance k rd)
    | None =>
        Rand (config w') = None /\
        cryptoRand w' = advance k (cryptoRand w)
    end.
Proof.
  revert r w. induction k as [|k IH]; intros r w Hwf Hc.
  - exists r, w. split; [reflexivity|].
    destruct (Rand (config w)) as [[sc p]|]; [|destruct (cryptoRand w)];
      try split; reflexivity.
  - destruct (rotate_wf r w Hwf Hc) as (r1 & w1 & Hrot & Hpost).
    destruct Hpost.
    destruct (IH r1 w1 post_wf0 ltac:(lia)) as (r' & w' & Hrun & Hrd).
    exists r', w'. cbn [rotations]. rewrite Hrot. cbn [bind].
    split; [exact Hrun|].
    pose proof (rotate_readers r w _ r1 w1 Hrot) as H1.
    destruct (Rand (config w)) as [rd|].
    + rewrite H1 in Hrd. rewrite Hrd. unfold advance. cbn [script pos].
      do 2 f_equal. lia.
    + destruct H1 as [HR HC]. rewrite HR in Hrd. destruct Hrd as [HR' HC'].
      split; [exact HR'|]. rewrite HC', HC. unfold advance. cbn [script pos].
      f_equal. lia.
Qed.

Lemma rotations_read_one_source_witness :
  exists r' w',
    rotations 2 rotatorB worldB = Normal (r', w') /\
    Rand (config w') = Some (advance 2 readerB).
Proof.
  apply (rotations_read_one_source 2 rotatorB worldB).
  - unfold wf. cbn. lia.
  - cbn. lia.
Defined.

(** X5: the option does not return for a capacity that is not positive: a
    negative [n] panics in [make], and [n = 0] panics in [rotate] on
    [r.keys[1:]]; in neither case is anything published or the flag set,
    for no world comes back. *)
Theorem seeding_panics_without_capacity (n d : Z) (st : Chan) (w : World) :
  (n <= 0)%Z ->
  WithSessionTicketKeyRotation n d st w =
    Panic (if (n <? 0)%Z then "makeslice: cap out of range"
           else "slice bounds out of range").
Proof.
  intros Hn. unfold WithSessionTicketKeyRotation, newRotator, make.
  destruct (n <? 0)%Z eqn:Hlt; [reflexivity|].
  apply Z.ltb_ge in Hlt. assert (n = 0%Z) by lia. subst n. reflexivity.
Qed.

Lemma seeding_panics_without_capacity_witness :
  WithSessionTicketKeyRotation 0 3600 0 (worldWith [ok k1])
    = Panic "slice bounds out of range" /\
  WithSessionTicketKeyRotation (-1) 3600 0 (worldWith [ok k1])
    = Panic "makeslice: cap out of range".
Proof.
  split.
  - apply (seeding_panics_without_capacity 0 3600 0 (worldWith [ok k1])). lia.
  - apply (seeding_panics_without_capacity (-1) 3600 0 (worldWith [ok k1])).
    lia.
Defined.

(** ** More on [Start] and [Stop] *)

Lemma exec_app (l1 l2 : list Label) : forall (s : System),
  exec (l1 ++ l2) s =
  match exec l1 s with
  | Some s1 => exec l2 s1
  | None => None
  end.
Proof.
  induction l1 as [|l l1 IH]; intros s; [reflexivity|].
  cbn [app exec]. destruct (step l s); [apply IH|reflexivity].
Qed.

Lemma step_without_loop (l : Label) (s s' : System) :
  stopPending s ->
  pastSelect s \/ (loopPC s = LIdle /\ l <> CallStart) ->
  step l s = Some s' ->
  stopPending s' /\
  (pastSelect s -> pastSelect s') /\
  (loopPC s = LIdle -> loopPC s' = LIdle) /\
  rot s' = rot s /\ world s' = world s.
Proof.
  destruct s as [r w lp sp cl nc tk].
  unfold stopPending, pastSelect. cbn [loopPC stopPC rot world].
  intros Hsp Hlp H. step_cases H.
  destruct l, lp, sp; try contradiction; try discriminate;
    try (destruct Hlp as [[]|[Hi Hl]]; try discriminate;
         try (exfalso; apply Hl; reflexivity));
    repeat match type of H with
           | (if ?b then _ else _) = _ => destruct b
           end;
    try discriminate;
    injection H as <-; cbn; repeat split; auto; try discriminate.
Qed.

(** X6: [Stop] gets through only to a loop in its [select]. Called once
    [Start] has taken a stop request or has returned, or called while
    [Start] is never entered, [Stop] stays blocked on [r.stop <- q] under
    every schedule, and nothing is rotated or published meanwhile. *)
Theorem stop_blocks_without_loop (ls : list Label) (s s' : System) :
  stopPending s ->
  pastSelect s \/ (loopPC s = LIdle /\ ~ In CallStart ls) ->
  exec ls s = Some s' ->
  stopPending s' /\ stopPC s' <> SDone /\
  rot s' = rot s /\ world s' = world s.
Proof.
  revert s. induction ls as [|l ls IH]; intros s Hsp Hlp H; cbn [exec] in H.
  - injection H as <-. repeat split; try assumption.
    unfold stopPending in Hsp. intros Hd. now rewrite Hd in Hsp.
  - destruct (step l s) as [s1|] eqn:Hs; [|discriminate].
    assert (Hl : pastSelect s \/ (loopPC s = LIdle /\ l <> CallStart)).
    { destruct Hlp as [Hp|[Hi Hn]]; [now left|right]. split; [exact Hi|].
      intros ->. apply Hn. now left. }
    destruct (step_without_loop l s s1 Hsp Hl Hs)
      as (Hsp1 & Hp1 & Hi1 & Hr1 & Hw1).
    assert (Hlp1 : pastSelect s1 \/ (loopPC s1 = LIdle /\ ~ In CallStart ls)).
    { destruct Hlp as [Hp|[Hi Hn]]; [left; now apply Hp1|right].
      split; [now apply Hi1|]. intros Hin. apply Hn. now right. }
    destruct (IH s1 Hsp1 Hlp1 H) as (Hsp' & Hd & Hr & Hw).
    repeat split; try assumption; congruence.
Qed.

Lemma stop_blocks_without_loop_witness :
  exec [CallStop None; ReturnNil]
       (mkSystem rotatorB worldB LReturn SIdle [7] 8 true)
    = Some (mkSystem rotatorB worldB (LDone None) (SSend 8) [7] 9 false) /\
  stopPending (mkSystem rotatorB worldB (LDone None) (SSend 8) [7] 9 false) /\
  SSend 8 <> SDone /\
  rotatorB = rotatorB /\ worldB = worldB.
Proof.
  split; [reflexivity|].
  apply (stop_blocks_without_loop [CallStop None; ReturnNil]
           (mkSystem rotatorB worldB LReturn SIdle [7] 8 true)
           (mkSystem rotatorB worldB (LDone None) (SSend 8) [7] 9 false)).
  - exact I.
  - left. exact I.
  - reflexivity.
Defined.

(** The states of the handshake once the request is taken: [q] is still to
    be closed; then [q] is closed and both goroutines are about to go on, in
    either order. *)
Lemma step_after_handoff (r : KeyRotator) (w : World) (q : Chan)
  (cl : list Chan) (nc : Chan) (tk : bool) (l : Label) (s' : System) :
  existsb (Nat.eqb q) cl = false ->
  step l (mkSystem r w (LClose q) (SRecv q) cl nc tk) = Some s' ->
  s' = mkSystem r w LReturn (SRecv q) (q :: cl) nc tk.
Proof.
  intros Hq H. step_cases H. rewrite ?Hq in H.
  destruct l; try discriminate; now injection H as <-.
Qed.

Lemma step_after_close (r : KeyRotator) (w : World) (q : Chan)
  (cl : list Chan) (nc : Chan) (tk : bool) (l : Label) (s' : System) :
  step l (mkSystem r w LReturn (SRecv q) (q :: cl) nc tk) = Some s' ->
  s' = mkSystem r w LReturn SDone (q :: cl) nc tk \/
  s' = mkSystem r w (LDone None) (SRecv q) (q :: cl) nc false.
Proof.
  intros H. step_cases H. cbn [existsb] in H. rewrite Nat.eqb_refl in H.
  destruct l; try discriminate; injection H as <-; auto.
Qed.

Lemma step_last (r : KeyRotator) (w : World) (q : Chan)
  (cl : list Chan) (nc : Chan) (tk : bool) (l : Label) (s1 s' : System) :
  s1 = mkSystem r w LReturn SDone (q :: cl) nc tk \/
  s1 = mkSystem r w (LDone None) (SRecv q) (q :: cl) nc false ->
  step l s1 = Some s' ->
  s' = mkSystem r w (LDone None) SDone (q :: cl) nc false.
Proof.
  intros [-> | ->] H; step_cases H; cbn [existsb] in H;
    rewrite ?Nat.eqb_refl in H;
    destruct l; try discriminate; now injection H as <-.
Qed.

Lemma step_finished (r : KeyRotator) (w : World) (cl : list Chan)
  (nc : Chan) (l : Label) :
  step l (mkSystem r w (LDone None) SDone cl nc false) = None.
Proof. destruct l; reflexivity. Qed.

(** X7: a call of [Stop] on a loop in its [select] runs to its end under
    every schedule. After any number of ticks that still slip in, the
    request can be taken; once it is taken, every schedule has at most three
    more moves, rotates and publishes nothing, never comes to a state where
    nothing can move before both [Stop] and [Start] have returned with the
    ticker stopped, and is there after three moves. *)
Theorem stop_completes (s : System) (e : option error) (k : nat) :
  wf (rot s) (world s) -> 1 <= cap (keys (rot s)) ->
  loopPC s = LSelect -> stopPC s = SIdle ->
  isClosed (nextChan s) s = false ->
  exists s1,
    exec (CallStop e :: repeat Tick k ++ [Handoff]) s = Some s1 /\
    rotations k (rot s) (world s) = Normal (rot s1, world s1) /\
    forall ls s',
      exec ls s1 = Some s' ->
      length ls <= 3 /\
      rot s' = rot s1 /\ world s' = world s1 /\
      (finished s' \/ enabled s') /\
      (length ls = 3 -> finished s').
Proof.
  intros Hwf Hc Hlp Hsp Hcl.
  destruct s as [r w lp sp cl nc tk].
  cbn [rot world loopPC stopPC nextChan] in *. subst lp sp.
  unfold isClosed in Hcl. cbn [closed] in Hcl.
  set (s0 := mkSystem r w LSelect (SSend nc) cl (S nc) tk).
  destruct (exec_ticks k s0 Hwf Hc eq_refl)
    as (s2 & Hex & Hlp2 & Hrun & _ & Hsp2 & Hcl2).
  destruct s2 as [r2 w2 lp2 sp2 cl2 nc2 tk2].
  cbn [rot world loopPC stopPC closed] in *. subst lp2 sp2 cl2.
  exists (mkSystem r2 w2 (LClose nc) (SRecv nc) cl nc2 tk2).
  split; [|split; [exact Hrun|]].
  { cbn [exec]. unfold step at 1.
    cbn [crashed loopPC Stop Stop_enter stopPC rot world closed nextChan
         ticker].
    fold s0. rewrite exec_app, Hex. subst s0. reflexivity. }
  cbn [rot world].
  assert (Hen1 : enabled (mkSystem r2 w2 (LClose nc) (SRecv nc) cl nc2 tk2)).
  { exists CloseQ. eexists. step_cases_goal. rewrite Hcl. reflexivity. }
  assert (Hen2 : enabled (mkSystem r2 w2 LReturn (SRecv nc) (nc :: cl) nc2 tk2)).
  { exists ReturnNil. eexists. reflexivity. }
  assert (Hen3 : enabled (mkSystem r2 w2 LReturn SDone (nc :: cl) nc2 tk2)).
  { exists ReturnNil. eexists. reflexivity. }
  assert (Hen4 : enabled (mkSystem r2 w2 (LDone None) (SRecv nc) (nc :: cl)
                                   nc2 false)).
  { exists Wake. eexists. step_cases_goal. cbn [existsb].
    rewrite Nat.eqb_refl. reflexivity. }
  intros ls s' H.
  destruct ls as [|l1 ls]; cbn [exec] in H.
  { injection H as <-. cbn [length rot world].
    repeat split; try lia; auto. }
  destruct (step l1 _) as [sa|] eqn:H1; [|discriminate].
  apply (step_after_handoff r2 w2 nc cl nc2 tk2 l1 sa Hcl) in H1. subst sa.
  destruct ls as [|l2 ls]; cbn [exec] in H.
  { injection H as <-. cbn [length rot world].
    repeat split; try lia; auto. }
  destruct (step l2 _) as [sb|] eqn:H2; [|discriminate].
  apply step_after_close in H2.
  destruct ls as [|l3 ls]; cbn [exec] in H.
  { injection H as <-. cbn [length].
    destruct H2 as [-> | ->]; cbn [rot world]; repeat split; try lia; auto. }
  destruct (step l3 sb) as [sc|] eqn:H3; [|discriminate].
  apply (step_last r2 w2 nc cl nc2 tk2 l3 sb sc H2) in H3. subst sc.
  destruct ls as [|l4 ls]; cbn [exec] in H.
  { injection H as <-. cbn [length rot world].
    repeat split; try lia; left; repeat split. }
  rewrite step_finished in H. discriminate.
Qed.

Lemma stop_completes_witness :
  exists s1,
    exec (CallStop None :: repeat Tick 2 ++ [Handoff]) runningB = Some s1 /\
    rotations 2 rotatorB worldB = Normal (rot s1, world s1) /\
    forall ls s',
      exec ls s1 = Some s' ->
      length ls <= 3 /\
      rot s' = rot s1 /\ world s' = world s1 /\
      (finished s' \/ enabled s') /\
      (length ls = 3 -> finished s').
Proof.
  apply (stop_completes runningB None 2).
  - unfold wf. cbn. lia.
  - cbn. lia.
  - reflexivity.
  - reflexivity.
  - reflexivity.
Defined.

(** Both orders of the last two moves end with [Stop] and [Start]
    returned. *)
Example stop_completes_either_order :
  option_map stopPC
    (exec [CallStop None; Handoff; CloseQ; Wake; ReturnNil] runningB)
    = Some SDone /\
  option_map stopPC
    (exec [CallStop None; Handoff; CloseQ; ReturnNil; Wake] runningB)
    = Some SDone /\
  option_map loopPC
    (exec [CallStop None; Handoff; CloseQ; ReturnNil; Wake] runningB)
    = Some (LDone None).
Proof. repeat split. Qed.

(** X8: the option does not look at the interval. With a capacity of at
    least one and a first read that succeeds, an interval that is not
    positive is accepted and the rotator is added to the group, and its
    [Start] then panics in [time.NewTicker] before its first [select]. *)
Theorem nonpositive_interval_registers_then_panics (n d : Z) (st : Chan)
  (w : World) (c : Chan) :
  (1 <= n)%Z -> (d <= 0)%Z -> err (nextOutcome w) = None ->
  exists r' w' s',
    WithSessionTicketKeyRotation n d st w = Normal (None, w') /\
    group w' = group w ++ [r'] /\
    step CallStart (initial r' w' c) = Some s' /\
    crashed s' = true /\
    forall l, step l s' = None.
Proof.
  intros Hn Hd He.
  destruct (seeding_cases n d st w Hn) as (e & r' & w1 & -> & _ & Hpost & HW).
  rewrite He in HW. destruct Hpost. cbn [duration] in post_duration0.
  exists r', (group_Add r' w1). eexists.
  split; [exact HW|].
  split; [cbn [group_Add emit group]; now rewrite post_group0|].
  unfold step, initial, crashed, Start, Start_enter.
  cbn [loopPC rot]. rewrite post_duration0.
  replace (d <=? 0)%Z with true by (symmetry; apply Z.leb_le; exact Hd).
  split; [reflexivity|]. split; [reflexivity|]. intros l. reflexivity.
Qed.

Lemma nonpositive_interval_registers_then_panics_witness :
  exists r' w' s',
    WithSessionTicketKeyRotation 3 0 0 (worldWith [ok k1])
      = Normal (None, w') /\
    group w' = [] ++ [r'] /\
    step CallStart (initial r' w' 7) = Some s' /\
    crashed s' = true /\
    forall l, step l s' = None.
Proof.
  apply (nonpositive_interval_registers_then_panics 3 0 0
           (worldWith [ok k1]) 7).
  - lia.
  - lia.
  - reflexivity.
Defined.

(** ** Options and their composition *)

Lemma runOptions_app {S : Type} (a b : list (Fn S)) : forall (s : S),
  runOptions (a ++ b) s =
  ('(e, s') <- runOptions a s ;;
   match e with
   | Some _ => Normal (e, s')
   | None => runOptions b s'
   end).
Proof.
  induction a as [|opt a IH]; intros s; [reflexivity|].
  cbn [app runOptions].
  destruct (call opt s) as [[[e|] s']|msg]; cbn [bind]; try reflexivity.
  apply IH.
Qed.

Lemma runOptions_nested {S : Type} (pre mid post : list (Fn S)) (s : S) :
  runOptions (pre ++ Some (runOptions mid) :: post) s
  = runOptions (pre ++ mid ++ post) s.
Proof.
  rewrite !runOptions_app.
  destruct (runOptions pre s) as [[[e|] s1]|msg]; cbn [bind]; try reflexivity.
  cbn [runOptions call]. rewrite runOptions_app.
  destruct (runOptions mid s1) as [[[e|] s2]|msg]; reflexivity.
Qed.

(** X9: [Wrap] stops at the first option that returns an error: it returns
    that error with the configuration as the options up to and including
    that one left it, and the options after it are not called. *)
Theorem wrap_stops_at_first_error {P : Platform} (pre post : list Option)
  (opt : Option) (b b1 b2 : Build) (e : error) :
  call (Wrap pre) b = Normal (None, b1) ->
  call opt b1 = Normal (Some e, b2) ->
  call (Wrap (pre ++ opt :: post)) b = Normal (Some e, b2).
Proof.
  unfold Wrap, Option in *. cbn [call]. intros Hpre Hopt.
  rewrite (runOptions_app pre (opt :: post) b), Hpre.
  cbn [bind runOptions]. rewrite Hopt.
  reflexivity.
Qed.

Lemma wrap_stops_at_first_error_witness :
  call (Wrap ([WithTLS12] ++ WithKeyPair "missing.pem" "key.pem" :: [None]))
       (testBuild [])
  = Normal (Some "failed to load keypair: open missing.pem: no such file or directory"%string,
            match call WithTLS12 (testBuild []) with
            | Normal (_, b1) => b1
            | Panic _ => testBuild []
            end).
Proof.
  eapply (wrap_stops_at_first_error (P := testPlatform) [WithTLS12] [None]
            (WithKeyPair "missing.pem" "key.pem") (testBuild [])).
  - reflexivity.
  - reflexivity.
Defined.

(** X10: nesting is flattening. A [Wrap] among the options of a [Wrap]
    behaves as its own options written out in its place, errors and panics
    included; and so for [ACMEWrap]. *)
Theorem wrap_flattens {P : Platform} :
  (forall (pre mid post : list Option) (b : Build),
     call (Wrap (pre ++ Wrap mid :: post)) b
     = call (Wrap (pre ++ mid ++ post)) b) /\
  (forall (pre mid post : list ACMEOption) (a : Acme),
     call (ACMEWrap (pre ++ ACMEWrap mid :: post)) a
     = call (ACMEWrap (pre ++ mid ++ post)) a).
Proof.
  split; intros pre mid post s; apply runOptions_nested.
Qed.

Lemma keypairs_from {P : Platform} (pairs : list (string * string)) :
  forall (b : Build),
  runOptions (List.map (fun p => WithKeyPair (fst p) (snd p)) pairs) b
  = Normal (snd (loadAll pairs (bFS b)),
            set_Certificates b
              (Certificates (bSettings b) ++ fst (loadAll pairs (bFS b)))).
Proof.
  induction pairs as [|[c k] pairs IH]; intros b.
  - cbn. rewrite app_nil_r. destruct b as [w [] fs]. reflexivity.
  - cbn [List.map runOptions fst snd call WithKeyPair loadAll].
    destruct (tls_LoadX509KeyPair c k (bFS b)) as [cer|e] eqn:Hload.
    + cbn [bind]. rewrite IH. cbn [bFS set_bSettings bSettings Certificates].
      destruct (loadAll pairs (bFS b)) as [cs r]. cbn [fst snd].
      unfold set_Certificates, set_bSettings.
      cbn [bSettings bWorld bFS MinVersion PreferServerCipherSuites
           CurvePreferences CipherSuites Certificates GetCertificate].
      rewrite <- app_assoc. reflexivity.
    + cbn [bind fst snd]. rewrite app_nil_r.
      destruct b as [w [] fs]. reflexivity.
Qed.

(** X11: a run of [WithKeyPair] options appends the certificates it loads
    to [Certificates] in the order of the options, after those already
    there. It stops at the first pair that does not load: the certificates
    loaded before it stay appended, the error is the loader's, wrapped with
    "failed to load keypair", and nothing else of the configuration
    changes. *)
Theorem keypairs_append_in_order {P : Platform}
  (pairs : list (string * string)) (b : Build) :
  call (Wrap (List.map (fun p => WithKeyPair (fst p) (snd p)) pairs)) b
  = Normal (snd (loadAll pairs (bFS b)),
            set_Certificates b
              (Certificates (bSettings b) ++ fst (loadAll pairs (bFS b)))).
Proof.
  unfold Wrap. cbn [call]. apply keypairs_from.
Qed.

(** Three pairs, the last one missing: two certificates are kept. *)
Example keypairs_stop_at_missing_file :
  call (Wrap [WithKeyPair "a.pem" "a.key"; WithKeyPair "b.pem" "b.key";
              WithKeyPair "missing.pem" "c.key"; WithKeyPair "d.pem" "d.key"])
       (testBuild [])
  = Normal (Some "failed to load keypair: open missing.pem: no such file or directory"%string,
            set_Certificates (testBuild [])
                             ["a.pem+a.key"%string; "b.pem+b.key"%string]).
Proof. reflexivity. Qed.

Lemma acme_hosts_empty {P : Platform} (hls : list (list string)) :
  Forall (fun h => h = []) hls ->
  forall (a : Acme),
    runOptions (List.map WithACMEHosts hls) a = Normal (None, a).
Proof.
  intros Hall. induction Hall as [|h hls -> _ IH]; intros a; [reflexivity|].
  cbn [List.map runOptions call WithACMEHosts length Nat.ltb Nat.leb bind].
  apply IH.
Qed.

Lemma acme_hosts_frame {P : Platform} (hls : list (list string)) :
  forall (a : Acme),
  exists hp,
    runOptions (List.map WithACMEHosts hls) a
    = Normal (None, mkAcme (mkManager (Prompt (aManager a)) hp
                                      (Cache (aManager a)))
                           (aFS a)).
Proof.
  induction hls as [|h hls IH]; intros a.
  - exists (HostPolicy (aManager a)). destruct a as [[p hp c] fs]. reflexivity.
  - cbn [List.map runOptions call WithACMEHosts].
    destruct (0 <? length h); cbn [bind].
    + destruct (IH (mkAcme (mkManager (Prompt (aManager a))
                                      (Some (HostWhitelist h))
                                      (Cache (aManager a))) (aFS a)))
        as (hp & Hrun).
      exists hp. exact Hrun.
    + apply IH.
Qed.

(** X12: host lists do not add up. Of a run of [WithACMEHosts] options, the
    last one given at least one host decides the policy: it is the
    whitelist of that option's hosts alone, and the options with no hosts
    change nothing. No such run returns an error. *)
Theorem acme_hosts_last_wins {P : Platform} (pre post : list (list string))
  (h : list string) (a : Acme) :
  h <> [] ->
  Forall (fun x => x = []) post ->
  call (ACMEWrap (List.map WithACMEHosts (pre ++ h :: post))) a
  = Normal (None,
            mkAcme (mkManager (Prompt (aManager a)) (Some (HostWhitelist h))
                              (Cache (aManager a)))
                   (aFS a)).
Proof.
  intros Hh Hpost. unfold ACMEWrap. cbn [call].
  rewrite map_app. cbn [List.map].
  etransitivity; [apply (runOptions_app (S := Acme))|].
  destruct (acme_hosts_frame pre a) as (hp & ->).
  cbn [bind runOptions call WithACMEHosts aManager aFS Prompt Cache].
  destruct h as [|x h]; [contradiction|].
  cbn [length Nat.ltb Nat.leb bind].
  apply (acme_hosts_empty post Hpost).
Qed.

Lemma acme_hosts_last_wins_witness :
  call (ACMEWrap (List.map (WithACMEHosts (P := testPlatform))
                    ([["a.example"%string]; []]
                       ++ ["b.example"%string] :: [[]; []])))
       (mkAcme (P := testPlatform) (mkManager (Some AcceptTOS) None None) [])
  = Normal (None,
            mkAcme (P := testPlatform)
                   (mkManager (Some AcceptTOS)
                              (Some (HostWhitelist ["b.example"%string]))
                              None)
                   []).
Proof.
  apply (acme_hosts_last_wins (P := testPlatform)
           [["a.example"%string]; []] [[]; []] ["b.example"%string]
           (mkAcme (P := testPlatform)
                   (mkManager (Some AcceptTOS) None None) [])).
  - discriminate.
  - repeat constructor.
Defined.

(** X13: [WithACME] given a host list and a cache directory. When the
    directory cannot be made, the option returns the error of
    [os.MkdirAll] as it is and leaves the configuration without the
    manager, [GetCertificate] being what it was. Otherwise it installs the
    method of a manager that accepts the terms of service, caches in that
    directory and has the hosts for whitelist, or no host policy at all
    when no host is given; whatever was in [GetCertificate] is replaced. *)
Theorem acme_with_hosts_and_cache {P : Platform} (hosts : list string)
  (dir : string) (b : Build) :
  call (WithACME [WithACMEHosts hosts; WithACMEDirCache dir]) b
  = match os_MkdirAll dir (bFS b) with
    | (Some e, fs) => Normal (Some e, set_bFS b fs)
    | (None, fs) =>
        let t := bSettings b in
        Normal (None,
                mkBuild (bWorld b)
                  (mkSettings (MinVersion t) (PreferServerCipherSuites t)
                     (CurvePreferences t) (CipherSuites t) (Certificates t)
                     (Some (ManagerGetCertificate
                              (mkManager (Some AcceptTOS)
                                 match hosts with
                                 | [] => None
                                 | _ :: _ => Some (HostWhitelist hosts)
                                 end
                                 (Some (DirCache dir))))))
                  fs)
    end.
Proof.
  cbn [call WithACME runOptions WithACMEHosts WithACMEDirCache].
  destruct hosts as [|h hosts];
    cbn [length Nat.ltb Nat.leb bind aManager aFS Prompt HostPolicy Cache];
    destruct (os_MkdirAll dir (bFS b)) as [[e|] fs]; reflexivity.
Qed.

(** X14: built by [NewTLSConfig] from [WithTLS12] and the rotation option
    with a capacity of at least one, the configuration always comes back
    non-nil with a nil error, whatever the first read gives. The read is
    made on the platform generator, the new configuration having no [Rand].
    If it fails, tickets are disabled, the sink holds the one zero key and
    the group is as it was; if it succeeds, the sink holds the key read and
    the rotator is in the group. *)
Theorem new_config_with_rotation {P : Platform} (n d : Z) (st : Chan)
  (b : Build) :
  (1 <= n)%Z ->
  exists b',
    NewTLSConfig [WithTLS12; SessionTicketKeyRotation n d st] b
      = Normal (NewConfig, None, b') /\
    MinVersion (bSettings b') = VersionTLS12 /\
    bFS b' = bFS b /\
    nextOutcome (bWorld (freshBuild b))
      = script (cryptoRand (bWorld b)) (pos (cryptoRand (bWorld b))) /\
    match err (nextOutcome (bWorld (freshBuild b))) with
    | Some _ =>
        SessionTicketsDisabled (config (bWorld b')) = true /\
        sessionTicketKeys (config (bWorld b')) = [zeroKey] /\
        group (bWorld b') = group (bWorld b)
    | None =>
        SessionTicketsDisabled (config (bWorld b')) = false /\
        sessionTicketKeys (config (bWorld b'))
          = [buf (nextOutcome (bWorld (freshBuild b)))] /\
        exists r', group (bWorld b') = group (bWorld b) ++ [r']
    end.
Proof.
  intros Hn.
  destruct (seeding_cases n d st (bWorld (freshBuild b)) Hn)
    as (e & r' & w1 & -> & _ & Hpost & HW).
  destruct Hpost.
  assert (Hring : ring r' w1
                  = [installed (nextOutcome (bWorld (freshBuild b))) zeroKey]).
  { rewrite post_ring0. unfold ring.
    cbn [keys len view firstn keysArray set_keysArray]. rewrite firstn_nil.
    rewrite nextOutcome_set_keysArray.
    destruct (Z.to_nat n) eqn:Hz; [lia|]. reflexivity. }
  unfold NewTLSConfig. fold (freshBuild b).
  cbn [runOptions call WithTLS12 SessionTicketKeyRotation bind bWorld
       set_bSettings].
  change (bWorld (freshBuild b)) with (set_config (bWorld b) zeroConfig) in *.
  rewrite HW. cbn [bind].
  eexists. split; [reflexivity|].
  cbn [bSettings set_bWorld MinVersion bFS freshBuild bWorld].
  split; [reflexivity|]. split; [reflexivity|]. split; [reflexivity|].
  cbn [group set_keysArray set_config config SessionTicketsDisabled
       zeroConfig] in post_group0, post_flag0.
  unfold installed in Hring.
  destruct (err (nextOutcome (set_config (bWorld b) zeroConfig))).
  - unfold disableSessionTickets, emit, set_config.
    cbn [config group SessionTicketsDisabled sessionTicketKeys].
    rewrite post_sink0, Hring. repeat split. exact post_group0.
  - unfold group_Add, emit. cbn [config group].
    rewrite post_sink0, Hring, post_flag0, post_group0.
    repeat split. exists r'. reflexivity.
Qed.

Lemma new_config_with_rotation_witness :
  exists b',
    NewTLSConfig [WithTLS12; SessionTicketKeyRotation 3 3600 0]
                 (testBuild [ok k1])
      = Normal (NewConfig, None, b') /\
    MinVersion (bSettings b') = VersionTLS12 /\
    bFS b' = [] /\
    ok k1 = ok k1 /\
    SessionTicketsDisabled (config (bWorld b')) = false /\
    sessionTicketKeys (config (bWorld b')) = [k1] /\
    exists r', group (bWorld b') = [] ++ [r'].
Proof.
  apply (new_config_with_rotation (P := testPlatform) 3 3600 0
           (testBuild [ok k1])).
  lia.
Defined.

(** X15: what the options did is not undone when a later one fails. With
    the rotation option first and a key pair that does not load after it,
    [NewTLSConfig] returns a nil configuration and the wrapped error, while
    the rotator seeded for the configuration it gave up stays in the
    group. *)
Theorem new_config_failure_keeps_rotator {P : Platform} (n d : Z)
  (st : Chan) (certFile keyFile : string) (e : error) (b : Build) :
  (1 <= n)%Z ->
  err (nextOutcome (bWorld (freshBuild b))) = None ->
  tls_LoadX509KeyPair certFile keyFile (bFS b) = inr e ->
  exists b' r',
    NewTLSConfig [SessionTicketKeyRotation n d st;
                  WithKeyPair certFile keyFile] b
      = Normal (NilConfig, Some (errors_Wrap e "failed to load keypair"), b') /\
    group (bWorld b') = group (bWorld b) ++ [r'] /\
    cap (keys r') = Z.to_nat n /\
    sessionTicketKeys (config (bWorld b'))
      = [buf (nextOutcome (bWorld (freshBuild b)))].
Proof.
  intros Hn He Hload.
  destruct (seeding_cases n d st (bWorld (freshBuild b)) Hn)
    as (e' & r' & w1 & -> & _ & Hpost & HW).
  destruct Hpost. rewrite He in HW.
  assert (Hring : ring r' w1 = [buf (nextOutcome (bWorld (freshBuild b)))]).
  { rewrite post_ring0. unfold ring, installed.
    cbn [keys len view firstn keysArray set_keysArray]. rewrite firstn_nil.
    rewrite nextOutcome_set_keysArray, He. reflexivity. }
  unfold NewTLSConfig. fold (freshBuild b).
  cbn [runOptions call SessionTicketKeyRotation bind].
  rewrite HW.
  cbn [bind call WithKeyPair]. unfold set_bWorld, freshBuild.
  cbn [bFS bWorld bSettings]. rewrite Hload.
  cbn [bind]. eexists. exists r'.
  split; [reflexivity|]. cbn [bWorld group_Add emit group config].
  cbn [group set_keysArray set_config freshBuild bWorld] in post_group0.
  rewrite post_group0, post_sink0, Hring, post_cap0.
  repeat split.
Qed.

Lemma new_config_failure_keeps_rotator_witness :
  exists b' r',
    NewTLSConfig [SessionTicketKeyRotation 3 3600 0;
                  WithKeyPair "missing.pem" "key.pem"]
                 (testBuild [ok k1])
      = Normal (NilConfig,
                Some (errors_Wrap
                        "open missing.pem: no such file or directory"%string
                        "failed to load keypair"), b') /\
    group (bWorld b') = [] ++ [r'] /\
    cap (keys r') = 3 /\
    sessionTicketKeys (config (bWorld b')) = [k1].
Proof.
  apply (new_config_failure_keeps_rotator (P := testPlatform) 3 3600 0
           "missing.pem" "key.pem"
           "open missing.pem: no such file or directory"%string
           (testBuild [ok k1])).
  - lia.
  - reflexivity.
  - reflexivity.
Defined.
